(** * Dice Master: a shallow embedding of the application root and the die face

    The development follows the two source files that carry logic:
    - the application root (state hooks [numDice], [diceValues], [isRolling],
      [total]; the handlers [handleAdjustDice] and [rollDice] with its inner
      [animate] callback; the [numDice] synchronisation effect);
    - [components/Die.tsx] ([getDots] and the 3x3 grid it feeds).

    JavaScript numbers that are small integers are modelled as [Z].  The one
    place where the source computes on a fraction, [Math.random() * 6], is
    modelled on binary64 values with round-to-nearest-even (module [B64]). *)

From stdpp Require Import base list numbers.
From stdpp Require Import strings.
From Stdlib Require Import ZArith Lia Bool.

Local Open Scope Z_scope.

(** ** Binary64 magnitudes

    A non-negative finite binary64 number is an integer multiple of
    [2^-1074].  It is represented by that integer: [u] stands for
    [u * 2^-1074].  A number with numerator [u] is a binary64 value exactly
    when [u] fits 53 significant bits, that is when [u] is a multiple of
    [2^(log2 u - 52)]. *)
Module B64.

Definition emin : Z := 1074.
Definition prec : Z := 53.

(** the numerator of [1.0] *)
Definition one : Z := 2 ^ emin.

(** exponent of the unit in the last place of the binade of [n] *)
Definition ulp_exp (n : Z) : Z := Z.max 0 (Z.log2 n - (prec - 1)).

Definition representable (n : Z) : bool :=
  (0 <=? n) && (n mod 2 ^ ulp_exp n =? 0).

(** round to nearest, ties to even, of the exact value [n * 2^-1074] *)
Definition rne (n : Z) : Z :=
  let k := ulp_exp n in
  let q := n / 2 ^ k in
  let r := n mod 2 ^ k in
  if 2 * r <? 2 ^ k then q * 2 ^ k
  else if 2 ^ k <? 2 * r then (q + 1) * 2 ^ k
  else if Z.even q then q * 2 ^ k
  else (q + 1) * 2 ^ k.

(** [x * k] for a binary64 [x] and a small integer constant [k]: the exact
    product is again a multiple of [2^-1074], and is then rounded. *)
Definition mul_int (u k : Z) : Z := rne (u * k).

(** [Math.floor] of a non-negative binary64, as an integer *)
Definition floor (u : Z) : Z := u / one.

(** what [Math.random()] may return: a binary64 in [0, 1) *)
Definition is_random (u : Z) : bool := representable u && (u <? one).

End B64.

(** ** Constants of the application root *)

Definition MIN_DICE : Z := 1.
Definition MAX_DICE : Z := 8.
Definition ROLL_DURATION_MS : Z := 1000.
Definition SHUFFLE_INTERVAL_MS : Z := 80.

(** [getRandomValue]: [Math.floor(Math.random() * 6) + 1], where [r] is the
    value returned by the call of [Math.random()]. *)
Definition getRandomValue (r : Z) : Z := B64.floor (B64.mul_int r 6) + 1.

(** ** JavaScript array helpers used by the source *)

(** [Array(n).fill(x)].  The constructor raises a [RangeError] for a negative
    [n]; [dice_invariant] below shows that the source only calls it with a
    count between 0 and 8. *)
Definition js_array_fill (n : Z) (x : Z) : list Z := replicate (Z.to_nat n) x.

(** [a.slice(0, e)]: a negative [e] counts from the end of the array. *)
Definition js_slice0 (a : list Z) (e : Z) : list Z :=
  let len := Z.of_nat (length a) in
  let stop := if e <? 0 then Z.max (len + e) 0 else Z.min e len in
  take (Z.to_nat stop) a.

(** [a.reduce((acc, val) => acc + val, 0)] *)
Definition js_reduce_add (a : list Z) : Z := fold_left (fun acc val => acc + val) a 0.

(** [Array(n).fill(0).map(() => f())], the [i]-th call of [f] returning
    [f_at i] *)
Definition js_array_generate (n : Z) (f_at : nat -> Z) : list Z :=
  imap (fun i _ => f_at i) (js_array_fill n 0).

(** [x || 0] on a nullable number *)
Definition js_or_zero (x : option Z) : Z :=
  match x with
  | Some t => if t =? 0 then 0 else t
  | None => 0
  end.

(** ** The state of the application root *)

(** Host capabilities the component tests for before use. *)
Record Platform := mkPlatform {
  hasAudioContextClass : bool;   (* window.AudioContext || webkitAudioContext *)
  hasSpeechSynthesis : bool      (* 'speechSynthesis' in window *)
}.

(** The two phrases of [speakResult]. *)
Inductive Phrase := Congratulations | KeepTrying.

(** Calls into the host that the handlers make, in order. *)
Inductive Effect :=
| AudioContextCreate
| AudioResumeIfSuspended
| NoiseBurst
| SpeechCancel
| SpeechSpeak (text : Phrase)
| SetTimeout (ms : Z).

(** The four [useState] cells and the three [useRef] cells.  [pendingAnimate]
    stands for the timeout registered through [timerRef]: it is [Some n] while
    a call of [animate] is scheduled, [n] being the [numDice] that the closure
    of that [animate] captured. *)
Record App := mkApp {
  numDice : Z;
  diceValues : list Z;
  isRolling : bool;
  total : option Z;
  audioCtx : bool;
  startTime : option Z;
  pendingAnimate : option Z
}.

Definition setNumDice (v : Z) (s : App) : App :=
  mkApp v (diceValues s) (isRolling s) (total s) (audioCtx s) (startTime s) (pendingAnimate s).
Definition setDiceValues (v : list Z) (s : App) : App :=
  mkApp (numDice s) v (isRolling s) (total s) (audioCtx s) (startTime s) (pendingAnimate s).
Definition setIsRolling (v : bool) (s : App) : App :=
  mkApp (numDice s) (diceValues s) v (total s) (audioCtx s) (startTime s) (pendingAnimate s).
Definition setTotal (v : option Z) (s : App) : App :=
  mkApp (numDice s) (diceValues s) (isRolling s) v (audioCtx s) (startTime s) (pendingAnimate s).
Definition setAudioCtx (v : bool) (s : App) : App :=
  mkApp (numDice s) (diceValues s) (isRolling s) (total s) v (startTime s) (pendingAnimate s).
Definition setStartTime (v : option Z) (s : App) : App :=
  mkApp (numDice s) (diceValues s) (isRolling s) (total s) (audioCtx s) v (pendingAnimate s).
Definition setPendingAnimate (v : option Z) (s : App) : App :=
  mkApp (numDice s) (diceValues s) (isRolling s) (total s) (audioCtx s) (startTime s) v.

(** ** Side-effect helpers *)

Definition initAudio (p : Platform) (s : App) : App * list Effect :=
  let '(s1, e1) :=
    if audioCtx s then (s, [])
    else if hasAudioContextClass p then (setAudioCtx true s, [AudioContextCreate])
    else (s, []) in
  (s1, e1 ++ (if audioCtx s1 then [AudioResumeIfSuspended] else [])).

(** The burst fills its buffer with [Math.random()] values of its own; they
    go to the audio output only and are not among the dice draws. *)
Definition playShakeSound (s : App) : list Effect :=
  if audioCtx s then [NoiseBurst] else [].

(** The utterance settings (language, pitch, rate, voice) do not depend on
    [isWin]; only the phrase does. *)
Definition speakResult (p : Platform) (isWin : bool) : list Effect :=
  if hasSpeechSynthesis p
  then [SpeechCancel; SpeechSpeak (if isWin then Congratulations else KeepTrying)]
  else [].

(** ** Handlers *)

(** the updater passed to [setNumDice] in [handleAdjustDice] *)
Definition adjustUpdater (increment prev : Z) : Z :=
  let newValue := prev + increment in
  if newValue <? MIN_DICE then MIN_DICE
  else if MAX_DICE <? newValue then MAX_DICE
  else newValue.

Definition handleAdjustDice (p : Platform) (increment : Z) (s : App) : App * list Effect :=
  if isRolling s then (s, [])
  else
    let '(s1, e1) := initAudio p s in
    (setNumDice (adjustUpdater increment (numDice s1)) s1, e1).

(** the updater passed to [setDiceValues] in the [numDice] effect *)
Definition syncUpdater (numDice : Z) (prev : list Z) : list Z :=
  let currentLength := Z.of_nat (length prev) in
  if currentLength =? numDice then prev
  else if currentLength <? numDice
       then prev ++ js_array_fill (numDice - currentLength) 1
       else js_slice0 prev numDice.

(** the body of [useEffect(..., [numDice])] *)
Definition numDiceEffect (s : App) : App :=
  setTotal None (setDiceValues (syncUpdater (numDice s) (diceValues s)) s).

(** A render after a handler: the effect runs when its dependency [numDice]
    differs from the value of the previous render. *)
Definition render (prevNumDice : Z) (s : App) : App :=
  if numDice s =? prevNumDice then s else numDiceEffect s.

(** [animate], with [n] the [numDice] of its closure, [now] the result of its
    [Date.now()] and [draws i] the result of the [i]-th [Math.random()] of
    the dice draws it makes. *)
Definition animate (p : Platform) (n : Z) (now : Z) (draws : nat -> Z) (s : App)
  : App * list Effect :=
  let elapsed := now - js_or_zero (startTime s) in
  if elapsed <? ROLL_DURATION_MS then
    let e := playShakeSound s in
    let s1 := setDiceValues (imap (fun i _ => getRandomValue (draws i)) (diceValues s)) s in
    (setPendingAnimate (Some n) s1, e ++ [SetTimeout SHUFFLE_INTERVAL_MS])
  else
    let finalValues := js_array_generate n (fun i => getRandomValue (draws i)) in
    let finalTotal := js_reduce_add finalValues in
    let s1 := setIsRolling false (setTotal (Some finalTotal) (setDiceValues finalValues s)) in
    let isWin := finalTotal >=? n * 3 in
    (s1, speakResult p isWin).

(** [rollDice]: [t0] is the [Date.now()] stored in [startTimeRef], [t1] the
    one read by the first, synchronous call of [animate]. *)
Definition rollDice (p : Platform) (t0 t1 : Z) (draws : nat -> Z) (s : App)
  : App * list Effect :=
  if isRolling s then (s, [])
  else
    let '(s1, e1) := initAudio p s in
    let s2 := setStartTime (Some t0) (setTotal None (setIsRolling true s1)) in
    let '(s3, e3) := animate p (numDice s) t1 draws s2 in
    (s3, e1 ++ e3).

(** the timeout fires: the scheduled [animate] runs *)
Definition timerFires (p : Platform) (now : Z) (draws : nat -> Z) (s : App)
  : option (App * list Effect) :=
  match pendingAnimate s with
  | Some n => Some (animate p n now draws (setPendingAnimate None s))
  | None => None
  end.

(** [isLucky], computed at each render *)
Definition isLucky (s : App) : bool :=
  match total s with
  | Some t => t >=? numDice s * 3
  | None => false
  end.

(** The results area: the total with its feedback flag when a total is shown,
    nothing otherwise. *)
Definition resultsArea (s : App) : option (Z * bool) :=
  match total s with
  | Some t => if negb (isRolling s) then Some (t, isLucky s) else None
  | None => None
  end.

(** ** Events and reachable states

    One event is one call of a handler by the host, followed by the render it
    causes.  The state updates that a handler queues are applied together, in
    the order they were queued, before that render: React batches the updates
    of an event handler, and from version 18 on also those of a timer
    callback. *)

Inductive Event :=
| ClickAdjust (increment : Z)
| ClickRoll (t0 t1 : Z) (draws : nat -> Z)
| TimerFires (now : Z) (draws : nat -> Z).

Definition dispatch (p : Platform) (ev : Event) (s : App) : option (App * list Effect) :=
  match ev with
  | ClickAdjust d =>
      let '(s1, e) := handleAdjustDice p d s in Some (render (numDice s) s1, e)
  | ClickRoll t0 t1 draws =>
      let '(s1, e) := rollDice p t0 t1 draws s in Some (render (numDice s) s1, e)
  | TimerFires now draws =>
      match timerFires p now draws s with
      | Some (s1, e) => Some (render (numDice s) s1, e)
      | None => None
      end
  end.

(** the [useState]/[useRef] initial values *)
Definition initialApp : App := mkApp 1 [1] false None false None None.

(** after the first render the effect has run once *)
Definition mounted : App := numDiceEffect initialApp.

Inductive reachable (p : Platform) : App -> Prop :=
| reachable_mounted : reachable p mounted
| reachable_step s ev s' e :
    reachable p s -> dispatch p ev s = Some (s', e) -> reachable p s'.

(** ** The die face ([components/Die.tsx]) *)

Definition getDots (val : Z) : list Z :=
  match val with
  | 1 => [4]
  | 2 => [2; 6]
  | 3 => [0; 4; 8]
  | 4 => [0; 2; 6; 8]
  | 5 => [0; 2; 4; 6; 8]
  | 6 => [0; 2; 3; 5; 6; 8]
  | _ => []
  end.

(** [dots.includes(i)] *)
Definition includes (dots : list Z) (i : Z) : bool := existsb (Z.eqb i) dots.

(** the nine cells of the grid, [true] where a dot is drawn *)
Definition gridCells (val : Z) : list bool :=
  map (fun i => includes (getDots val) (Z.of_nat i)) (seq 0 9).

(** the cells that carry a dot, by grid index *)
Definition litPositions (val : Z) : list Z :=
  filter (fun i => Is_true (includes (getDots val) i)) (map Z.of_nat (seq 0 9)).

(** ** The standard faces of a die

    The pips of a standard six-sided die on a 3x3 grid, by row and column
    (0, 1, 2 from the top and from the left), stated without [getDots], to
    compare it with: one is the centre; two is a pair of opposite corners;
    three is the other diagonal, both corners and the centre; four is the
    four corners; five is the four corners and the centre; six is the two
    outer columns. *)
Definition isCentre (row col : Z) : bool := (row =? 1) && (col =? 1).

Definition isCorner (row col : Z) : bool := negb (row =? 1) && negb (col =? 1).

Definition standardPip (val row col : Z) : bool :=
  match val with
  | 1 => isCentre row col
  | 2 => isCorner row col && (row + col =? 2)
  | 3 => (isCorner row col && (row =? col)) || isCentre row col
  | 4 => isCorner row col
  | 5 => isCorner row col || isCentre row col
  | 6 => negb (col =? 1)
  | _ => false
  end.

(** The grid lays its nine cells out row by row: the cell of index [i] is in
    row [i / 3] and column [i mod 3]. *)
Definition standardCells (val : Z) : list Z :=
  filter (fun i => Is_true (standardPip val (i / 3) (i mod 3))) (map Z.of_nat (seq 0 9)).

(** ** Specification vocabulary *)

(** The sum of a list as the arithmetic defines it, to compare [reduce] with. *)
Fixpoint sumZ (l : list Z) : Z :=
  match l with
  | [] => 0
  | x :: l' => x + sumZ l'
  end.

(** The event runs the finishing branch of [animate]. *)
Definition completesRoll (ev : Event) (s : App) : bool :=
  match ev with
  | ClickAdjust _ => false
  | ClickRoll t0 t1 _ =>
      negb (isRolling s) && negb (t1 - js_or_zero (Some t0) <? ROLL_DURATION_MS)
  | TimerFires now _ =>
      match pendingAnimate s with
      | Some _ => negb (now - js_or_zero (startTime s) <? ROLL_DURATION_MS)
      | None => false
      end
  end.

(** the draws that an event hands to [getRandomValue] *)
Definition eventDraws (ev : Event) : nat -> Z :=
  match ev with
  | ClickAdjust _ => fun _ => 0
  | ClickRoll _ _ draws => draws
  | TimerFires _ draws => draws
  end.

(** The invariant of reachable states. *)
Record dice_invariant (s : App) : Prop := mkInv {
  inv_count : 1 <= numDice s <= 8;
  inv_length : Z.of_nat (length (diceValues s)) = numDice s;
  inv_total : isRolling s = true -> total s = None;
  inv_closure : forall n, pendingAnimate s = Some n -> n = numDice s;
  inv_pending : isRolling s = true <-> pendingAnimate s <> None
}.

(** ** Concrete runs used to exercise the theorems *)

Definition fullPlatform : Platform := mkPlatform true true.

(** every draw is 0.5, so every die shows 4 *)
Definition drawsHalf : nat -> Z := fun _ => 2 ^ 1073.

(** the state while the first roll is in progress *)
Definition rollingOnce : App :=
  mkApp 1 [4] true None true (Some 5000) (Some 1).

(** the state after that roll has finished *)
Definition rolledOnce : App :=
  mkApp 1 [4] false (Some 4) true (Some 5000) None.

(** two dice after a first roll and one press of the plus button *)
Definition twoDice : App :=
  mkApp 2 [4; 1] false None true (Some 5000) None.

(** every draw is 0, so every die shows 1 *)
Definition drawsZero : nat -> Z := fun _ => 0.

(** every draw is 0.375, so every die shows 3 *)
Definition drawsThree : nat -> Z := fun _ => 3 * 2 ^ 1071.

(** the state after the first roll has finished on a 1 *)
Definition lostOnce : App :=
  mkApp 1 [1] false (Some 1) true (Some 5000) None.

(** the state after the first roll has finished on a 3 *)
Definition threeOnce : App :=
  mkApp 1 [3] false (Some 3) true (Some 5000) None.

(** ** The controls of the count, as the markup sets them *)

(** the [disabled] attribute of the minus button *)
Definition minusDisabled (s : App) : bool := (numDice s <=? MIN_DICE) || isRolling s.

(** the [disabled] attribute of the plus button *)
Definition plusDisabled (s : App) : bool := (numDice s >=? MAX_DICE) || isRolling s.

(** ** The voice chosen by [speakResult] *)

(** What the selection reads of a [SpeechSynthesisVoice]. *)
Record Voice := mkVoice {
  voiceName : string;
  lang : string
}.

(** [s.includes(sub)] *)
Definition js_includes (s sub : string) : bool :=
  match String.index 0 sub s with
  | Some _ => true
  | None => false
  end.

(** [voices.find(v => v.lang === 'zh-CN') || voices.find(v => v.lang.includes('zh'))];
    [None] stands for [undefined], in which case the utterance keeps the
    default voice. *)
Definition selectVoice (voices : list Voice) : option Voice :=
  match List.find (fun v => String.eqb (lang v) "zh-CN") voices with
  | Some v => Some v
  | None => List.find (fun v => js_includes (lang v) "zh") voices
  end.

(** ** The cleanup of the unmount effect *)

Inductive CleanupCall := AudioContextClose | SpeechCancelAll.

Inductive Outcome := Returned | RaisedTypeError.

(** [clearTimeout(timerRef.current)] removes the scheduled [animate], if any
    (when nothing is scheduled the call is skipped or has no effect);
    [audioCtxRef.current.close()] is guarded by the reference; the call
    [window.speechSynthesis.cancel()] is not guarded, so it raises a
    [TypeError] where [window] has no [speechSynthesis]. *)
Definition unmountCleanup (p : Platform) (s : App) : App * list CleanupCall * Outcome :=
  let s1 := setPendingAnimate None s in
  let e1 := if audioCtx s then [AudioContextClose] else [] in
  if hasSpeechSynthesis p then (s1, e1 ++ [SpeechCancelAll], Returned)
  else (s1, e1, RaisedTypeError).

(** ** Sequences of events *)

(** The host delivers the events one after the other; the calls they make
    are collected in order.  [None]: some timer event had no timeout to fire. *)
Fixpoint run (p : Platform) (evs : list Event) (s : App) : option (App * list Effect) :=
  match evs with
  | [] => Some (s, [])
  | ev :: evs' =>
      match dispatch p ev s with
      | Some (s1, e1) =>
          match run p evs' s1 with
          | Some (s2, e2) => Some (s2, e1 ++ e2)
          | None => None
          end
      | None => None
      end
  end.

(** every [Math.random()] result an event carries is a binary64 in [0, 1) *)
Definition validDraws (ev : Event) : Prop :=
  forall i, B64.is_random (eventDraws ev i) = true.

(** a die value that [getDots] has a face for *)
Definition isFace (v : Z) : Prop := 1 <= v <= 6.

Definition isAudioEffect (e : Effect) : bool :=
  match e with
  | AudioContextCreate | AudioResumeIfSuspended | NoiseBurst => true
  | _ => false
  end.

Definition isSpeechEffect (e : Effect) : bool :=
  match e with
  | SpeechCancel | SpeechSpeak _ => true
  | _ => false
  end.

Definition isCreate (e : Effect) : bool :=
  match e with
  | AudioContextCreate => true
  | _ => false
  end.

Definition isSetTimeout (e : Effect) : bool :=
  match e with
  | SetTimeout _ => true
  | _ => false
  end.

(** how many calls of a kind a trace holds *)
Definition countEffects (f : Effect -> bool) (tr : list Effect) : nat :=
  length (List.filter f tr).

(** the timer event of a shuffle tick, from its time and its draws *)
Definition tickEvent (td : Z * (nat -> Z)) : Event := TimerFires td.1 td.2.

(** the state apart from the audio reference *)
Definition sameDice (s1 s2 : App) : Prop :=
  numDice s1 = numDice s2 /\ diceValues s1 = diceValues s2 /\
  isRolling s1 = isRolling s2 /\ total s1 = total s2 /\
  startTime s1 = startTime s2 /\ pendingAnimate s1 = pendingAnimate s2.

(** * Properties *)

(** ** Binary64: the draw never reaches 6.0 *)
Module B64Facts.
Import B64.

Lemma ulp_exp_nonneg n : 0 <= ulp_exp n.
Proof. unfold ulp_exp. lia. Qed.

Lemma rne_small n : 0 <= n < 2 ^ 53 -> rne n = n.
Proof.
  intros [H0 H1].
  assert (Hk : ulp_exp n = 0).
  { unfold ulp_exp, prec.
    destruct (Z.eq_dec n 0) as [->|Hn]; [reflexivity|].
    assert (Z.log2 n < 53) by (apply Z.log2_lt_pow2; lia). lia. }
  unfold rne. rewrite Hk. change (2 ^ 0) with 1.
  rewrite Z.mod_1_r, Z.div_1_r. simpl. lia.
Qed.

Lemma rne_nonneg n : 0 <= n -> 0 <= rne n.
Proof.
  intros H. unfold rne.
  pose proof (ulp_exp_nonneg n) as Hk.
  assert (0 < 2 ^ ulp_exp n) by (apply Z.pow_pos_nonneg; lia).
  assert (0 <= n / 2 ^ ulp_exp n) by (apply Z.div_pos; lia).
  repeat case_match; nia.
Qed.

(** rounding stays inside the closed binade of its argument *)
Lemma rne_le_next_pow2 n : 0 < n -> rne n <= 2 ^ (Z.log2 n + 1).
Proof.
  intros H.
  destruct (Z.log2_spec n H) as [Hlo Hhi].
  rewrite <- Z.add_1_r in Hhi.
  destruct (Z_lt_le_dec n (2 ^ 53)) as [Hs|Hb].
  { rewrite rne_small by lia. lia. }
  assert (Hl : 53 <= Z.log2 n) by (apply Z.log2_le_pow2; lia).
  assert (Hk : ulp_exp n = Z.log2 n - 52) by (unfold ulp_exp, prec; lia).
  assert (Hp : 2 ^ (Z.log2 n + 1) = 2 ^ 53 * 2 ^ ulp_exp n).
  { rewrite Hk, <- Z.pow_add_r by lia. f_equal. lia. }
  rewrite Hp in *.
  unfold rne.
  assert (Hpos : 0 < 2 ^ ulp_exp n) by (apply Z.pow_pos_nonneg; lia).
  set (P := 2 ^ ulp_exp n) in *.
  assert (Hq : n / P < 2 ^ 53) by (apply Z.div_lt_upper_bound; lia).
  assert (0 <= n / P) by (apply Z.div_pos; lia).
  repeat case_match; nia.
Qed.

(** every binary64 below 1 is at most [1 - 2^-53] *)
Lemma is_random_le u : is_random u = true -> 0 <= u <= (2 ^ 53 - 1) * 2 ^ 1021.
Proof.
  unfold is_random, representable, one, emin.
  rewrite !andb_true_iff, Z.leb_le, Z.eqb_eq, Z.ltb_lt.
  intros [[H0 Hm] H1]. split; [exact H0|].
  destruct (Z_lt_le_dec u (2 ^ 53)) as [Hs|Hb].
  { assert (1 <= 2 ^ 1021) by (apply (Z.pow_le_mono_r 2 0 1021); lia). nia. }
  assert (Hu : 0 < u) by lia.
  destruct (Z.log2_spec u Hu) as [Hlo Hhi].
  rewrite <- Z.add_1_r in Hhi.
  assert (Hl : 53 <= Z.log2 u) by (apply Z.log2_le_pow2; lia).
  assert (Hl' : Z.log2 u < 1074) by (apply Z.log2_lt_pow2; lia).
  assert (Hk : ulp_exp u = Z.log2 u - 52) by (unfold ulp_exp, prec; lia).
  assert (Hp : 2 ^ (Z.log2 u + 1) = 2 ^ 53 * 2 ^ ulp_exp u).
  { rewrite Hk, <- Z.pow_add_r by lia. f_equal. lia. }
  assert (Hpos : 0 < 2 ^ ulp_exp u) by (apply Z.pow_pos_nonneg; lia).
  assert (Hmono : 2 ^ ulp_exp u <= 2 ^ 1021) by (apply Z.pow_le_mono_r; lia).
  rewrite Hp in Hhi.
  pose proof (Z.div_mod u (2 ^ ulp_exp u) ltac:(lia)) as Hdm.
  rewrite Hm, Z.add_0_r in Hdm.
  set (P := 2 ^ ulp_exp u) in *. set (q := u / P) in *.
  assert (q < 2 ^ 53) by nia.
  assert (0 <= q) by nia.
  nia.
Qed.

Lemma mul6_below_six u :
  is_random u = true -> 0 <= mul_int u 6 < 6 * one.
Proof.
  intros Hr. apply is_random_le in Hr. destruct Hr as [H0 H1].
  unfold mul_int, one, emin. set (n := u * 6).
  assert (Hn0 : 0 <= n) by (unfold n; lia).
  split; [apply rne_nonneg; exact Hn0|].
  assert (E1074 : 2 ^ 1074 = 2 ^ 53 * 2 ^ 1021) by (rewrite <- Z.pow_add_r by lia; reflexivity).
  assert (E1076 : 2 ^ 1076 = 2 ^ 55 * 2 ^ 1021) by (rewrite <- Z.pow_add_r by lia; reflexivity).
  assert (E1077 : 2 ^ 1077 = 2 ^ 56 * 2 ^ 1021) by (rewrite <- Z.pow_add_r by lia; reflexivity).
  assert (E1024 : 2 ^ 1024 = 2 ^ 3 * 2 ^ 1021) by (rewrite <- Z.pow_add_r by lia; reflexivity).
  assert (HP : 0 < 2 ^ 1021) by (apply Z.pow_pos_nonneg; lia).
  assert (Hn1 : n <= 6 * (2 ^ 53 - 1) * 2 ^ 1021) by (unfold n; lia).
  destruct (Z.eq_dec n 0) as [->|Hnz].
  { rewrite rne_small by lia. lia. }
  destruct (Z_lt_le_dec n (2 ^ 1076)) as [Hs|Hb].
  - (* below 4.0: the rounded product is at most 4.0 *)
    pose proof (rne_le_next_pow2 n ltac:(lia)) as Hle.
    assert (Z.log2 n < 1076) by (apply Z.log2_lt_pow2; lia).
    assert (2 ^ (Z.log2 n + 1) <= 2 ^ 1076) by (apply Z.pow_le_mono_r; lia).
    rewrite E1074. rewrite E1076 in *. 
    change (2 ^ 53) with 9007199254740992.
    change (2 ^ 55) with 36028797018963968 in *. lia.
  - (* in [4.0, 6.0): the unit in the last place is 2^-50 *)
    assert (Hl : Z.log2 n = 1076).
    { apply Z.log2_unique; [lia|]. split; [exact Hb|].
      change (2 ^ Z.succ 1076) with (2 ^ 1077). rewrite E1077.
      change (2 ^ 53) with 9007199254740992 in Hn1.
      change (2 ^ 56) with 72057594037927936. lia. }
    assert (Hk : ulp_exp n = 1024) by (unfold ulp_exp, prec; rewrite Hl; reflexivity).
    unfold rne. rewrite Hk, E1024, E1074.
    rewrite E1076 in Hb.
    change (2 ^ 53) with 9007199254740992 in *.
    change (2 ^ 55) with 36028797018963968 in *.
    change (2 ^ 3) with 8 in *.
    set (P := 2 ^ 1021) in *.
    pose proof (Z.div_mod n (8 * P) ltac:(lia)) as Hdm.
    pose proof (Z.mod_pos_bound n (8 * P) ltac:(lia)) as Hmb.
    set (q := n / (8 * P)) in *. set (r := n mod (8 * P)) in *.
    repeat case_match; lia.
Qed.

Lemma floor_mul6_range u :
  is_random u = true -> 0 <= floor (mul_int u 6) <= 5.
Proof.
  intros Hr. pose proof (mul6_below_six u Hr) as [Hlo Hhi].
  assert (0 < one) by (unfold one, emin; apply Z.pow_pos_nonneg; lia).
  unfold floor. split.
  - apply Z.div_pos; lia.
  - assert (mul_int u 6 / one < 6) by (apply Z.div_lt_upper_bound; lia). lia.
Qed.

End B64Facts.

Lemma getRandomValue_range r :
  B64.is_random r = true -> 1 <= getRandomValue r <= 6.
Proof.
  intros Hr. unfold getRandomValue.
  pose proof (B64Facts.floor_mul6_range r Hr). lia.
Qed.

Example getRandomValue_half : getRandomValue (2 ^ 1073) = 4.
Proof. vm_compute. reflexivity. Qed.

Example getRandomValue_zero : getRandomValue 0 = 1.
Proof. vm_compute. reflexivity. Qed.

(** the largest binary64 below 1 still gives 6 *)
Example getRandomValue_pred_one : getRandomValue ((2 ^ 53 - 1) * 2 ^ 1021) = 6.
Proof. vm_compute. reflexivity. Qed.

(** ** Array helpers *)

Lemma js_array_generate_seq n f_at :
  js_array_generate n f_at = map f_at (seq 0 (Z.to_nat n)).
Proof.
  unfold js_array_generate, js_array_fill.
  rewrite imap_seq_0, length_replicate. reflexivity.
Qed.

Lemma length_js_array_generate n f_at :
  length (js_array_generate n f_at) = Z.to_nat n.
Proof.
  unfold js_array_generate, js_array_fill.
  rewrite length_imap, length_replicate. reflexivity.
Qed.

Lemma js_slice0_take a e :
  0 <= e -> js_slice0 a e = take (Z.to_nat e) a.
Proof.
  intros He. unfold js_slice0.
  destruct (e <? 0) eqn:Hneg; [apply Z.ltb_lt in Hneg; lia|].
  destruct (Z_le_gt_dec e (Z.of_nat (length a))) as [Hle|Hgt].
  - rewrite Z.min_l by lia. reflexivity.
  - rewrite Z.min_r by lia. rewrite Nat2Z.id.
    rewrite !take_ge by lia. reflexivity.
Qed.

Lemma length_syncUpdater n prev :
  0 <= n -> length (syncUpdater n prev) = Z.to_nat n.
Proof.
  intros Hn. unfold syncUpdater.
  destruct (Z.of_nat (length prev) =? n) eqn:He.
  { apply Z.eqb_eq in He. lia. }
  apply Z.eqb_neq in He.
  destruct (Z.of_nat (length prev) <? n) eqn:Hl.
  - apply Z.ltb_lt in Hl. unfold js_array_fill.
    rewrite length_app, length_replicate. lia.
  - apply Z.ltb_ge in Hl. rewrite js_slice0_take by lia.
    rewrite length_take. lia.
Qed.

Lemma fold_left_add_sumZ l acc :
  fold_left (fun a v => a + v) l acc = acc + sumZ l.
Proof.
  revert acc. induction l as [|x l IH]; intros acc; simpl.
  - lia.
  - rewrite IH. lia.
Qed.

Lemma js_reduce_add_sumZ l : js_reduce_add l = sumZ l.
Proof. unfold js_reduce_add. rewrite fold_left_add_sumZ. lia. Qed.

(** ** The clamp of [handleAdjustDice] *)

Lemma adjustUpdater_clamp d c :
  adjustUpdater d c = Z.min MAX_DICE (Z.max MIN_DICE (c + d)).
Proof.
  unfold adjustUpdater, MIN_DICE, MAX_DICE.
  destruct (c + d <? 1) eqn:H1; [apply Z.ltb_lt in H1; lia|].
  apply Z.ltb_ge in H1.
  destruct (8 <? c + d) eqn:H2; [apply Z.ltb_lt in H2|apply Z.ltb_ge in H2]; lia.
Qed.

Lemma adjustUpdater_range d c : 1 <= adjustUpdater d c <= 8.
Proof. rewrite adjustUpdater_clamp. unfold MIN_DICE, MAX_DICE. lia. Qed.

(** ** Frame facts of the helpers *)

Lemma initAudio_frame p s s1 e1 :
  initAudio p s = (s1, e1) ->
  numDice s1 = numDice s /\ diceValues s1 = diceValues s /\
  isRolling s1 = isRolling s /\ total s1 = total s /\
  startTime s1 = startTime s /\ pendingAnimate s1 = pendingAnimate s.
Proof.
  unfold initAudio.
  destruct (audioCtx s); [|destruct (hasAudioContextClass p)];
    intros [= <- <-]; repeat split.
Qed.

(** Name the result of [initAudio p s] and bring its frame facts in. *)
Ltac init_audio_cases p s :=
  let Hi := fresh "Hi" in
  destruct (initAudio p s) as [s1 e1] eqn:Hi;
  destruct (initAudio_frame _ _ _ _ Hi) as (F1 & F2 & F3 & F4 & F5 & F6).

Lemma render_same s : render (numDice s) s = s.
Proof. unfold render. rewrite Z.eqb_refl. reflexivity. Qed.

Lemma animate_numDice p n now draws s :
  numDice (animate p n now draws s).1 = numDice s.
Proof. unfold animate. case_match; reflexivity. Qed.

(** ** The invariant of reachable states *)

Lemma dice_invariant_mounted : dice_invariant mounted.
Proof.
  split; simpl; try lia; try congruence.
  split; [discriminate|congruence].
Qed.

Lemma animate_shuffle p n now draws s :
  (now - js_or_zero (startTime s) <? ROLL_DURATION_MS) = true ->
  animate p n now draws s =
    (setPendingAnimate (Some n)
       (setDiceValues (imap (fun i _ => getRandomValue (draws i)) (diceValues s)) s),
     playShakeSound s ++ [SetTimeout SHUFFLE_INTERVAL_MS]).
Proof. intros H. unfold animate. rewrite H. reflexivity. Qed.

Lemma animate_finish p n now draws s :
  (now - js_or_zero (startTime s) <? ROLL_DURATION_MS) = false ->
  animate p n now draws s =
    let finalValues := js_array_generate n (fun i => getRandomValue (draws i)) in
    let finalTotal := js_reduce_add finalValues in
    (setIsRolling false (setTotal (Some finalTotal) (setDiceValues finalValues s)),
     speakResult p (finalTotal >=? n * 3)).
Proof. intros H. unfold animate. rewrite H. reflexivity. Qed.

(** [animate] keeps the invariant when it runs for the roll in progress. *)
Lemma animate_invariant p now draws s :
  1 <= numDice s <= 8 ->
  Z.of_nat (length (diceValues s)) = numDice s ->
  isRolling s = true -> total s = None -> pendingAnimate s = None ->
  dice_invariant (animate p (numDice s) now draws s).1.
Proof.
  intros Hc Hl Hr Ht Hp.
  destruct (now - js_or_zero (startTime s) <? ROLL_DURATION_MS) eqn:He.
  - rewrite animate_shuffle by exact He. split; simpl.
    + exact Hc.
    + rewrite length_imap. exact Hl.
    + intros _. exact Ht.
    + intros m [= <-]. reflexivity.
    + split; [discriminate|intros _; exact Hr].
  - rewrite animate_finish by exact He. split; simpl.
    + exact Hc.
    + rewrite length_js_array_generate. lia.
    + discriminate.
    + rewrite Hp. discriminate.
    + rewrite Hp. split; [discriminate|congruence].
Qed.

Lemma numDiceEffect_invariant s :
  1 <= numDice s <= 8 ->
  (isRolling s = true <-> pendingAnimate s <> None) ->
  (forall n, pendingAnimate s = Some n -> n = numDice s) ->
  dice_invariant (numDiceEffect s).
Proof.
  intros Hc Hp Hn. split; simpl.
  - exact Hc.
  - rewrite length_syncUpdater by lia. lia.
  - reflexivity.
  - exact Hn.
  - exact Hp.
Qed.

Lemma handleAdjustDice_invariant p d s :
  dice_invariant s ->
  dice_invariant (render (numDice s) (handleAdjustDice p d s).1).
Proof.
  intros Hinv. pose proof Hinv as [Hc Hl Ht Hn Hp]. unfold handleAdjustDice.
  destruct (isRolling s) eqn:Hr.
  { simpl. rewrite render_same. exact Hinv. }
  init_audio_cases p s.
  simpl. unfold render. simpl.
  pose proof (adjustUpdater_range d (numDice s1)) as Hrange.
  destruct (adjustUpdater d (numDice s1) =? numDice s) eqn:He.
  - apply Z.eqb_eq in He. split; simpl; rewrite ?F2, ?F3, ?F4, ?F6, ?He, ?Hr; assumption.
  - apply numDiceEffect_invariant; simpl; rewrite ?F3, ?F6, ?Hr.
    + exact Hrange.
    + exact Hp.
    + intros n Hsome. exfalso. destruct Hp as [_ Hp].
      discriminate Hp. rewrite Hsome. discriminate.
Qed.

Lemma rollDice_invariant p t0 t1 draws s :
  dice_invariant s -> dice_invariant (rollDice p t0 t1 draws s).1.
Proof.
  intros Hinv. pose proof Hinv as [Hc Hl Ht Hn Hp]. unfold rollDice.
  destruct (isRolling s) eqn:Hr; [exact Hinv|].
  init_audio_cases p s.
  set (s2 := setStartTime (Some t0) (setTotal None (setIsRolling true s1))).
  assert (Ha : dice_invariant (animate p (numDice s) t1 draws s2).1);
    [|destruct (animate p (numDice s) t1 draws s2) as [s3 e3]; exact Ha].
  replace (numDice s) with (numDice s2) by (simpl; exact F1).
  apply animate_invariant; simpl; rewrite ?F1, ?F2, ?F6; try assumption; try reflexivity.
  destruct (pendingAnimate s) eqn:Hpend; [|reflexivity].
  destruct Hp as [_ Hp]. discriminate Hp. discriminate.
Qed.

Lemma timerFires_invariant p now draws s s1 e :
  dice_invariant s -> timerFires p now draws s = Some (s1, e) -> dice_invariant s1.
Proof.
  intros [Hc Hl Ht Hn Hp]. unfold timerFires.
  destruct (pendingAnimate s) as [n|] eqn:Hpend; [|discriminate].
  intros [= Ha]. change s1 with (s1, e).1. rewrite <- Ha.
  rewrite (Hn n eq_refl).
  change (numDice s) with (numDice (setPendingAnimate None s)).
  assert (Hr : isRolling s = true) by (apply Hp; discriminate).
  apply animate_invariant; simpl; auto.
Qed.

Lemma dispatch_numDice_roll p t0 t1 draws s :
  numDice (rollDice p t0 t1 draws s).1 = numDice s.
Proof.
  unfold rollDice. destruct (isRolling s); [reflexivity|].
  init_audio_cases p s.
  match goal with |- context [animate ?a ?b ?c ?d ?x] =>
    pose proof (animate_numDice a b c d x) as Ha;
    destruct (animate a b c d x) as [s3 e3] end.
  simpl in *. congruence.
Qed.

Lemma timerFires_numDice p now draws s s1 e :
  timerFires p now draws s = Some (s1, e) -> numDice s1 = numDice s.
Proof.
  unfold timerFires. destruct (pendingAnimate s); [|discriminate].
  intros [= Ha]. change s1 with (s1, e).1. rewrite <- Ha, animate_numDice.
  reflexivity.
Qed.

(** Only [ClickAdjust] goes through the effect: the other events render the
    state their handler produced. *)
Lemma dispatch_roll p t0 t1 draws s :
  dispatch p (ClickRoll t0 t1 draws) s = Some (rollDice p t0 t1 draws s).
Proof.
  simpl. pose proof (dispatch_numDice_roll p t0 t1 draws s) as Hn.
  destruct (rollDice p t0 t1 draws s) as [s1 e]. simpl in Hn.
  rewrite <- Hn, render_same. reflexivity.
Qed.

Lemma dispatch_timer p now draws s :
  dispatch p (TimerFires now draws) s = timerFires p now draws s.
Proof.
  simpl. destruct (timerFires p now draws s) as [[s1 e]|] eqn:Ht; [|reflexivity].
  rewrite <- (timerFires_numDice _ _ _ _ _ _ Ht), render_same. reflexivity.
Qed.

Lemma dispatch_adjust p d s :
  dispatch p (ClickAdjust d) s =
    Some (render (numDice s) (handleAdjustDice p d s).1, (handleAdjustDice p d s).2).
Proof. simpl. destruct (handleAdjustDice p d s). reflexivity. Qed.

Lemma dice_invariant_step p ev s s' e :
  dice_invariant s -> dispatch p ev s = Some (s', e) -> dice_invariant s'.
Proof.
  intros Hinv. destruct ev as [d|t0 t1 draws|now draws].
  - rewrite dispatch_adjust. intros [= <- _]. apply handleAdjustDice_invariant, Hinv.
  - rewrite dispatch_roll. intros [= H]. change s' with (s', e).1. rewrite <- H.
    apply rollDice_invariant, Hinv.
  - rewrite dispatch_timer. apply timerFires_invariant, Hinv.
Qed.

Lemma reachable_invariant p s : reachable p s -> dice_invariant s.
Proof.
  induction 1 as [|s ev s' e _ IH Hd].
  - apply dice_invariant_mounted.
  - eapply dice_invariant_step; eassumption.
Qed.

(** What a finishing event produces.  Only the link between the scheduled
    [animate] and the current state is needed, not the whole invariant. *)
Lemma completesRoll_result p ev s s' e :
  (forall n, pendingAnimate s = Some n -> n = numDice s) ->
  (pendingAnimate s <> None -> isRolling s = true) ->
  dispatch p ev s = Some (s', e) -> completesRoll ev s = true ->
  let finalValues := js_array_generate (numDice s) (fun i => getRandomValue (eventDraws ev i)) in
  let finalTotal := js_reduce_add finalValues in
  numDice s' = numDice s /\ diceValues s' = finalValues /\
  total s' = Some finalTotal /\ isRolling s' = false /\
  e = (if isRolling s then [] else (initAudio p s).2)
        ++ speakResult p (finalTotal >=? numDice s * 3).
Proof.
  intros Hn Hp. destruct ev as [d|t0 t1 draws|now draws]; simpl completesRoll.
  - discriminate.
  - rewrite dispatch_roll. unfold rollDice.
    destruct (isRolling s) eqn:Hr; [discriminate|]. simpl negb. rewrite andb_true_l.
    init_audio_cases p s.
    intros Hd Hcmp. apply negb_true_iff in Hcmp.
    rewrite animate_finish in Hd by exact Hcmp.
    simpl in Hd. injection Hd as <- <-. simpl. rewrite F1. repeat split.
  - rewrite dispatch_timer. unfold timerFires.
    destruct (pendingAnimate s) as [n|] eqn:Hpend; [|discriminate].
    intros Hd Hcmp. apply negb_true_iff in Hcmp.
    rewrite animate_finish in Hd by exact Hcmp.
    simpl in Hd. injection Hd as <- <-. simpl.
    rewrite (Hn n eq_refl).
    assert (Hr : isRolling s = true) by (apply Hp; discriminate).
    rewrite Hr. repeat split.
Qed.

Lemma completesRoll_result_inv p ev s s' e :
  dice_invariant s -> dispatch p ev s = Some (s', e) -> completesRoll ev s = true ->
  let finalValues := js_array_generate (numDice s) (fun i => getRandomValue (eventDraws ev i)) in
  let finalTotal := js_reduce_add finalValues in
  numDice s' = numDice s /\ diceValues s' = finalValues /\
  total s' = Some finalTotal /\ isRolling s' = false /\
  e = (if isRolling s then [] else (initAudio p s).2)
        ++ speakResult p (finalTotal >=? numDice s * 3).
Proof.
  intros [Hc Hl Ht Hn Hp]. apply completesRoll_result; [exact Hn|apply Hp].
Qed.

(** An event that does not finish a roll leaves the total alone or clears it. *)
Lemma not_completesRoll_total p ev s s' e :
  dispatch p ev s = Some (s', e) -> completesRoll ev s = false ->
  total s' = total s \/ total s' = None.
Proof.
  destruct ev as [d|t0 t1 draws|now draws]; simpl completesRoll.
  - rewrite dispatch_adjust. intros [= <- _] _. unfold handleAdjustDice.
    destruct (isRolling s); [simpl; rewrite render_same; left; reflexivity|].
    init_audio_cases p s.
    simpl. unfold render. case_match; simpl; [left; exact F4|right; reflexivity].
  - rewrite dispatch_roll. unfold rollDice.
    destruct (isRolling s); [intros [= <- _] _; left; reflexivity|].
    simpl negb. rewrite andb_true_l. intros Hd Hcmp. apply negb_false_iff in Hcmp.
    destruct (initAudio p s) as [s1 e1] eqn:Hi.
    rewrite animate_shuffle in Hd by exact Hcmp.
    injection Hd as <- _. right. reflexivity.
  - rewrite dispatch_timer. unfold timerFires.
    destruct (pendingAnimate s) as [n|]; [|discriminate].
    intros Hd Hcmp. apply negb_false_iff in Hcmp.
    rewrite animate_shuffle in Hd by exact Hcmp.
    injection Hd as <- _. left. reflexivity.
Qed.

(** ** The concrete runs are reachable *)

Lemma reachable_rollingOnce : reachable fullPlatform rollingOnce.
Proof.
  apply (reachable_step fullPlatform mounted (ClickRoll 5000 5000 drawsHalf) _
           [AudioContextCreate; AudioResumeIfSuspended; NoiseBurst; SetTimeout 80]).
  - apply reachable_mounted.
  - vm_compute. reflexivity.
Defined.

Lemma reachable_rolledOnce : reachable fullPlatform rolledOnce.
Proof.
  apply (reachable_step fullPlatform rollingOnce (TimerFires 6000 drawsHalf) _
           [SpeechCancel; SpeechSpeak Congratulations]).
  - apply reachable_rollingOnce.
  - vm_compute. reflexivity.
Defined.

Lemma reachable_twoDice : reachable fullPlatform twoDice.
Proof.
  apply (reachable_step fullPlatform rolledOnce (ClickAdjust 1) _ [AudioResumeIfSuspended]).
  - apply reachable_rolledOnce.
  - vm_compute. reflexivity.
Defined.

(** ** The calls of [initAudio] are audio calls *)

Lemma initAudio_no_speech p s ph : ~ In (SpeechSpeak ph) (initAudio p s).2.
Proof.
  unfold initAudio.
  destruct (audioCtx s) eqn:Ha; [|destruct (hasAudioContextClass p)];
    simpl; rewrite ?Ha; simpl; intros H;
    repeat match goal with
           | H : _ \/ _ |- _ => destruct H
           | H : False |- _ => destruct H
           end; discriminate.
Qed.

Lemma speakResult_phrase p w ph :
  In (SpeechSpeak ph) (speakResult p w) <->
  hasSpeechSynthesis p = true /\ ph = (if w then Congratulations else KeepTrying).
Proof.
  unfold speakResult. destruct (hasSpeechSynthesis p); simpl.
  - split.
    + intros [H|[H|[]]]; [discriminate|]. injection H as <-. auto.
    + intros [_ ->]. right. left. reflexivity.
  - split; [intros []|intros [H _]; discriminate].
Qed.

(** * The claims *)

(** C1. When a roll finishes with dice count [n] and total [t], the verdict is
    a win exactly when [t >= n * 3]; a total of exactly [n * 3] wins.  The
    spoken verdict and the shown one are that same verdict: where speech
    synthesis exists the phrase spoken is the congratulation exactly when
    [t >= n * 3] and the encouragement exactly when [t < n * 3] (without
    speech synthesis nothing is spoken), and the results area shows [t]
    flagged lucky exactly when [t >= n * 3]. *)
Theorem verdict_win_iff_total_reaches_threshold p ev s s' e :
  reachable p s -> dispatch p ev s = Some (s', e) -> completesRoll ev s = true ->
  exists t verdict,
    total s' = Some t /\
    (verdict = true <-> t >= numDice s' * 3) /\
    (t = numDice s' * 3 -> verdict = true) /\
    e = (if isRolling s then [] else (initAudio p s).2) ++ speakResult p verdict /\
    isLucky s' = verdict /\
    resultsArea s' = Some (t, verdict) /\
    (hasSpeechSynthesis p = true ->
       (In (SpeechSpeak Congratulations) e <-> t >= numDice s' * 3) /\
       (In (SpeechSpeak KeepTrying) e <-> t < numDice s' * 3) /\
       (t = numDice s' * 3 -> In (SpeechSpeak Congratulations) e)) /\
    (hasSpeechSynthesis p = false -> forall ph, ~ In (SpeechSpeak ph) e).
Proof.
  intros Hre Hd Hc. apply reachable_invariant in Hre.
  destruct (completesRoll_result_inv _ _ _ _ _ Hre Hd Hc) as (Hn & Hv & Ht & Hr & He).
  set (t := js_reduce_add _) in *.
  exists t, (t >=? numDice s * 3). rewrite Hn.
  assert (Hge : (t >=? numDice s * 3) = true <-> t >= numDice s * 3)
    by (rewrite Z.geb_le; lia).
  assert (Hspoken : forall ph,
            In (SpeechSpeak ph) e <->
            hasSpeechSynthesis p = true /\
            ph = (if t >=? numDice s * 3 then Congratulations else KeepTrying)).
  { intros ph. rewrite He, in_app_iff, speakResult_phrase. split; [|auto].
    intros [Hpre|Hsp]; [|exact Hsp]. exfalso.
    destruct (isRolling s); [destruct Hpre|].
    exact (initAudio_no_speech p s ph Hpre). }
  split; [exact Ht|]. split; [exact Hge|].
  split; [intros ->; apply Hge; lia|]. split; [exact He|].
  split; [unfold isLucky; rewrite Ht, Hn; reflexivity|].
  split; [unfold resultsArea, isLucky; rewrite Ht, Hr, Hn; reflexivity|].
  split.
  - intros Hsp. rewrite !Hspoken.
    destruct (t >=? numDice s * 3) eqn:Hw.
    + assert (t >= numDice s * 3) by (apply Hge; reflexivity).
      repeat split; auto; try lia. intros [_ Hph]. discriminate.
    + assert (~ t >= numDice s * 3) by (intros H; apply Hge in H; discriminate).
      repeat split; auto; try lia. intros [_ Hph]. discriminate.
  - intros Hsp ph Hin. apply Hspoken in Hin as [Hyes _]. congruence.
Qed.

Lemma verdict_win_iff_total_reaches_threshold_witness :
  exists t verdict,
    total lostOnce = Some t /\
    (verdict = true <-> t >= numDice lostOnce * 3) /\
    (t = numDice lostOnce * 3 -> verdict = true) /\
    [SpeechCancel; SpeechSpeak KeepTrying]
      = (if isRolling rollingOnce then [] else (initAudio fullPlatform rollingOnce).2)
          ++ speakResult fullPlatform verdict /\
    isLucky lostOnce = verdict /\
    resultsArea lostOnce = Some (t, verdict) /\
    (hasSpeechSynthesis fullPlatform = true ->
       (In (SpeechSpeak Congratulations) [SpeechCancel; SpeechSpeak KeepTrying]
          <-> t >= numDice lostOnce * 3) /\
       (In (SpeechSpeak KeepTrying) [SpeechCancel; SpeechSpeak KeepTrying]
          <-> t < numDice lostOnce * 3) /\
       (t = numDice lostOnce * 3 ->
          In (SpeechSpeak Congratulations) [SpeechCancel; SpeechSpeak KeepTrying])) /\
    (hasSpeechSynthesis fullPlatform = false ->
       forall ph, ~ In (SpeechSpeak ph) [SpeechCancel; SpeechSpeak KeepTrying]).
Proof.
  apply (verdict_win_iff_total_reaches_threshold fullPlatform
           (TimerFires 6000 drawsZero) rollingOnce).
  - exact reachable_rollingOnce.
  - vm_compute. reflexivity.
  - vm_compute. reflexivity.
Defined.

(** The three outcomes of one die, run on the code: a 1 loses, a 3 is the
    boundary and wins, a 4 wins. *)
Example finish_on_one_speaks_encouragement :
  dispatch fullPlatform (TimerFires 6000 drawsZero) rollingOnce
    = Some (lostOnce, [SpeechCancel; SpeechSpeak KeepTrying]) /\
  resultsArea lostOnce = Some (1, false).
Proof. vm_compute. split; reflexivity. Qed.

Example finish_on_three_speaks_congratulation :
  dispatch fullPlatform (TimerFires 6000 drawsThree) rollingOnce
    = Some (threeOnce, [SpeechCancel; SpeechSpeak Congratulations]) /\
  resultsArea threeOnce = Some (3, true).
Proof. vm_compute. split; reflexivity. Qed.

Example finish_on_four_speaks_congratulation :
  dispatch fullPlatform (TimerFires 6000 drawsHalf) rollingOnce
    = Some (rolledOnce, [SpeechCancel; SpeechSpeak Congratulations]) /\
  resultsArea rolledOnce = Some (4, true).
Proof. vm_compute. split; reflexivity. Qed.

(** C2. When a roll finishes, the total is the arithmetic sum of the final
    collection; that collection holds one new draw per die, taken by the
    finishing call; the values shown by the shuffle ticks have no influence:
    whatever collection was on display, the same event gives the same total
    and the same final collection. *)
Theorem total_is_sum_of_final_draws p ev s s' e :
  reachable p s -> dispatch p ev s = Some (s', e) -> completesRoll ev s = true ->
  total s' = Some (sumZ (diceValues s')) /\
  diceValues s' =
    map (fun i => getRandomValue (eventDraws ev i)) (seq 0 (Z.to_nat (numDice s))) /\
  forall shown, exists s'',
    dispatch p ev (setDiceValues shown s) = Some (s'', e) /\
    total s'' = total s' /\ diceValues s'' = diceValues s'.
Proof.
  intros Hre Hd Hc. apply reachable_invariant in Hre.
  pose proof Hre as [_ _ _ Hclo Hpend].
  destruct (completesRoll_result_inv _ _ _ _ _ Hre Hd Hc) as (Hn & Hv & Ht & Hr & He).
  split; [|split].
  - rewrite Ht, Hv, js_reduce_add_sumZ. reflexivity.
  - rewrite Hv. apply js_array_generate_seq.
  - intros shown.
    assert (Hsome : exists s'' e'', dispatch p ev (setDiceValues shown s) = Some (s'', e'')).
    { destruct ev as [d|t0 t1 draws|now draws].
      - discriminate Hc.
      - rewrite dispatch_roll. destruct (rollDice _ _ _ _ _); eauto.
      - rewrite dispatch_timer. unfold timerFires. simpl.
        simpl in Hc. destruct (pendingAnimate s); [|discriminate].
        destruct (animate _ _ _ _ _); eauto. }
    destruct Hsome as (s'' & e'' & Hd').
    assert (Hc' : completesRoll ev (setDiceValues shown s) = true)
      by (destruct ev; exact Hc).
    destruct (completesRoll_result p ev (setDiceValues shown s) s'' e'')
      as (Hn' & Hv' & Ht' & Hr' & He'); [exact Hclo|apply Hpend|exact Hd'|exact Hc'|].
    simpl in Hv', Ht', He'.
    assert (He'' : e'' = e).
    { rewrite He, He'. f_equal. destruct (isRolling s); [reflexivity|].
      unfold initAudio. simpl.
      destruct (audioCtx s); [|destruct (hasAudioContextClass p)]; reflexivity. }
    exists s''. rewrite <- He''. split; [exact Hd'|].
    rewrite Ht, Ht', Hv, Hv'. split; reflexivity.
Qed.

Lemma total_is_sum_of_final_draws_witness :
  total rolledOnce = Some (sumZ (diceValues rolledOnce)) /\
  diceValues rolledOnce =
    map (fun i => getRandomValue (drawsHalf i)) (seq 0 (Z.to_nat (numDice rollingOnce))) /\
  forall shown, exists s'',
    dispatch fullPlatform (TimerFires 6000 drawsHalf) (setDiceValues shown rollingOnce)
      = Some (s'', [SpeechCancel; SpeechSpeak Congratulations]) /\
    total s'' = total rolledOnce /\ diceValues s'' = diceValues rolledOnce.
Proof.
  apply (total_is_sum_of_final_draws fullPlatform
           (TimerFires 6000 drawsHalf) rollingOnce rolledOnce).
  - exact reachable_rollingOnce.
  - vm_compute. reflexivity.
  - vm_compute. reflexivity.
Defined.

(** C3. For every reachable dice count (always between 1 and 8) and every
    finishing roll whose draws are binary64 numbers in [0, 1), the final
    collection has exactly as many entries as there are dice and each entry is
    an integer between 1 and 6; the draw [floor(r * 6) + 1] is between 1 and 6
    for every such [r]. *)
Theorem final_collection_length_and_range p ev s s' e :
  reachable p s -> dispatch p ev s = Some (s', e) -> completesRoll ev s = true ->
  (forall i, B64.is_random (eventDraws ev i) = true) ->
  1 <= numDice s' <= 8 /\
  Z.of_nat (length (diceValues s')) = numDice s' /\
  Forall (fun v => 1 <= v <= 6) (diceValues s') /\
  (forall r, B64.is_random r = true -> 1 <= getRandomValue r <= 6).
Proof.
  intros Hre Hd Hc Hdraws.
  assert (Hre' : reachable p s') by (eapply reachable_step; eassumption).
  apply reachable_invariant in Hre, Hre'.
  destruct Hre' as [Hcnt Hlen _ _ _].
  destruct (completesRoll_result_inv _ _ _ _ _ Hre Hd Hc) as (Hn & Hv & Ht & Hr & He).
  split; [exact Hcnt|]. split; [exact Hlen|]. split.
  - rewrite Hv, js_array_generate_seq. apply Forall_fmap, Forall_forall.
    intros i _. simpl. apply getRandomValue_range, Hdraws.
  - exact getRandomValue_range.
Qed.

Lemma final_collection_length_and_range_witness :
  1 <= numDice rolledOnce <= 8 /\
  Z.of_nat (length (diceValues rolledOnce)) = numDice rolledOnce /\
  Forall (fun v => 1 <= v <= 6) (diceValues rolledOnce) /\
  (forall r, B64.is_random r = true -> 1 <= getRandomValue r <= 6).
Proof.
  apply (final_collection_length_and_range fullPlatform
           (TimerFires 6000 drawsHalf) rollingOnce rolledOnce
           [SpeechCancel; SpeechSpeak Congratulations]).
  - exact reachable_rollingOnce.
  - vm_compute. reflexivity.
  - vm_compute. reflexivity.
  - intros i. vm_compute. reflexivity.
Defined.

(** C4. When no roll is in progress, adjusting by [d] from count [c] gives the
    count [min 8 (max 1 (c + d))]; plus one at 8 stays at 8 and minus one at 1
    stays at 1. *)
Theorem adjust_clamps_count p d s s' e :
  isRolling s = false -> dispatch p (ClickAdjust d) s = Some (s', e) ->
  numDice s' = Z.min 8 (Z.max 1 (numDice s + d)) /\
  (numDice s = 8 -> d = 1 -> numDice s' = 8) /\
  (numDice s = 1 -> d = -1 -> numDice s' = 1).
Proof.
  intros Hr. rewrite dispatch_adjust. intros [= <- _].
  assert (Hn : numDice (render (numDice s) (handleAdjustDice p d s).1)
               = Z.min 8 (Z.max 1 (numDice s + d))).
  { unfold handleAdjustDice. rewrite Hr.
    init_audio_cases p s.
    simpl. unfold render. case_match; simpl; rewrite F1; apply adjustUpdater_clamp. }
  rewrite Hn. lia.
Qed.

Lemma adjust_clamps_count_witness :
  numDice twoDice = Z.min 8 (Z.max 1 (numDice rolledOnce + 1)) /\
  (numDice rolledOnce = 8 -> 1 = 1 -> numDice twoDice = 8) /\
  (numDice rolledOnce = 1 -> 1 = -1 -> numDice twoDice = 1).
Proof.
  apply (adjust_clamps_count fullPlatform 1 rolledOnce twoDice [AudioResumeIfSuspended]).
  - reflexivity.
  - vm_compute. reflexivity.
Defined.

(** C5. When an event takes the dice count from [k] to [n], with the
    collection holding [k] values: if [n > k] the new collection is the old
    one followed by [n - k] ones, and if [n < k] it is the first [n] values of
    the old one. *)
Theorem count_change_resizes_collection p ev s s' e :
  reachable p s -> dispatch p ev s = Some (s', e) ->
  Z.of_nat (length (diceValues s)) = numDice s /\
  (numDice s < numDice s' ->
     diceValues s' = diceValues s ++ replicate (Z.to_nat (numDice s' - numDice s)) 1) /\
  (numDice s' < numDice s ->
     diceValues s' = take (Z.to_nat (numDice s')) (diceValues s)).
Proof.
  intros Hre Hd.
  assert (Hre' : reachable p s') by (eapply reachable_step; eassumption).
  apply reachable_invariant in Hre, Hre'.
  destruct Hre as [Hc Hl _ _ _]. destruct Hre' as [Hc' _ _ _ _].
  split; [exact Hl|].
  destruct ev as [d|t0 t1 draws|now draws].
  - rewrite dispatch_adjust in Hd. injection Hd as Hs' _. revert Hs' Hc'.
    unfold handleAdjustDice.
    destruct (isRolling s).
    { simpl. rewrite render_same. intros <- _. lia. }
    init_audio_cases p s.
    simpl. unfold render. simpl.
    destruct (adjustUpdater d (numDice s1) =? numDice s) eqn:He.
    { apply Z.eqb_eq in He. intros <- _. simpl. lia. }
    intros <-. simpl. set (n := adjustUpdater d (numDice s1)). intros Hn.
    rewrite F2. unfold syncUpdater. rewrite Hl.
    destruct (numDice s =? n) eqn:E1; [apply Z.eqb_eq in E1; lia|].
    destruct (numDice s <? n) eqn:E2.
    + apply Z.ltb_lt in E2. split; [reflexivity|lia].
    + apply Z.ltb_ge in E2. split; [lia|]. intros _. apply js_slice0_take. lia.
  - rewrite dispatch_roll in Hd. injection Hd as Hs'.
    pose proof (dispatch_numDice_roll p t0 t1 draws s) as Hn.
    rewrite Hs' in Hn. simpl in Hn. lia.
  - rewrite dispatch_timer in Hd. apply timerFires_numDice in Hd. lia.
Qed.

Lemma count_change_resizes_collection_witness :
  Z.of_nat (length (diceValues rolledOnce)) = numDice rolledOnce /\
  (numDice rolledOnce < numDice twoDice ->
     diceValues twoDice
       = diceValues rolledOnce
           ++ replicate (Z.to_nat (numDice twoDice - numDice rolledOnce)) 1) /\
  (numDice twoDice < numDice rolledOnce ->
     diceValues twoDice = take (Z.to_nat (numDice twoDice)) (diceValues rolledOnce)).
Proof.
  apply (count_change_resizes_collection fullPlatform (ClickAdjust 1)
           rolledOnce twoDice [AudioResumeIfSuspended]).
  - exact reachable_rolledOnce.
  - vm_compute. reflexivity.
Defined.

(** C6. After any event that changes the dice count, no total is present,
    whatever the total was before. *)
Theorem count_change_clears_total p ev s s' e :
  dispatch p ev s = Some (s', e) -> numDice s' <> numDice s -> total s' = None.
Proof.
  intros Hd Hne. destruct ev as [d|t0 t1 draws|now draws].
  - rewrite dispatch_adjust in Hd. injection Hd as Hs' _. subst s'.
    unfold render in *. destruct (_ =? _) eqn:He.
    + apply Z.eqb_eq in He. contradiction.
    + reflexivity.
  - rewrite dispatch_roll in Hd. injection Hd as Hs'.
    pose proof (dispatch_numDice_roll p t0 t1 draws s) as Hn.
    rewrite Hs' in Hn. contradiction.
  - rewrite dispatch_timer in Hd. apply timerFires_numDice in Hd. contradiction.
Qed.

Lemma count_change_clears_total_witness : total twoDice = None.
Proof.
  apply (count_change_clears_total fullPlatform (ClickAdjust 1)
           rolledOnce twoDice [AudioResumeIfSuspended]).
  - vm_compute. reflexivity.
  - vm_compute. discriminate.
Defined.

(** C7. While a roll is in progress, the count adjustment and the roll
    trigger return at once: the whole state, references included, is the
    same afterwards and no call into the host is made. *)
Theorem rolling_makes_adjust_and_roll_noops p d t0 t1 draws s :
  isRolling s = true ->
  handleAdjustDice p d s = (s, []) /\
  rollDice p t0 t1 draws s = (s, []) /\
  dispatch p (ClickAdjust d) s = Some (s, []) /\
  dispatch p (ClickRoll t0 t1 draws) s = Some (s, []).
Proof.
  intros Hr.
  assert (Ha : handleAdjustDice p d s = (s, []))
    by (unfold handleAdjustDice; rewrite Hr; reflexivity).
  assert (Hroll : rollDice p t0 t1 draws s = (s, []))
    by (unfold rollDice; rewrite Hr; reflexivity).
  split; [exact Ha|]. split; [exact Hroll|]. split.
  - rewrite dispatch_adjust, Ha. simpl. rewrite render_same. reflexivity.
  - rewrite dispatch_roll, Hroll. reflexivity.
Qed.

Lemma rolling_makes_adjust_and_roll_noops_witness :
  handleAdjustDice fullPlatform 1 rollingOnce = (rollingOnce, []) /\
  rollDice fullPlatform 5500 5500 drawsHalf rollingOnce = (rollingOnce, []) /\
  dispatch fullPlatform (ClickAdjust 1) rollingOnce = Some (rollingOnce, []) /\
  dispatch fullPlatform (ClickRoll 5500 5500 drawsHalf) rollingOnce = Some (rollingOnce, []).
Proof.
  apply (rolling_makes_adjust_and_roll_noops fullPlatform 1 5500 5500 drawsHalf rollingOnce).
  reflexivity.
Defined.

(** C8. In every reachable state no total is present while a roll is in
    progress.  A roll trigger that starts the shuffle sets the rolling flag
    and leaves no total, in one step; and a step in which a total appears or
    changes is a finishing step, which also clears the rolling flag. *)
Theorem no_total_while_rolling p s :
  reachable p s ->
  (isRolling s = true -> total s = None) /\
  (forall t0 t1 draws s' e,
     dispatch p (ClickRoll t0 t1 draws) s = Some (s', e) ->
     isRolling s = false -> completesRoll (ClickRoll t0 t1 draws) s = false ->
     isRolling s' = true /\ total s' = None) /\
  (forall ev s' e,
     dispatch p ev s = Some (s', e) ->
     total s' <> None -> total s' <> total s ->
     completesRoll ev s = true /\ isRolling s' = false).
Proof.
  intros Hre. apply reachable_invariant in Hre. pose proof Hre as [_ _ Ht _ _].
  split; [exact Ht|]. split.
  - intros t0 t1 draws s' e. rewrite dispatch_roll. unfold rollDice.
    simpl completesRoll. intros Hd Hr. rewrite Hr in *.
    simpl negb. rewrite andb_true_l. intros Hcmp. apply negb_false_iff in Hcmp.
    destruct (initAudio p s) as [s1 e1] eqn:Hi.
    rewrite animate_shuffle in Hd by exact Hcmp.
    injection Hd as <- _. split; reflexivity.
  - intros ev s' e Hd Hsome Hchg.
    destruct (completesRoll ev s) eqn:Hc.
    + split; [reflexivity|].
      destruct (completesRoll_result_inv _ _ _ _ _ Hre Hd Hc) as (_ & _ & _ & Hr & _).
      exact Hr.
    + destruct (not_completesRoll_total _ _ _ _ _ Hd Hc); contradiction.
Qed.

Lemma no_total_while_rolling_witness :
  (isRolling rollingOnce = true -> total rollingOnce = None) /\
  (forall t0 t1 draws s' e,
     dispatch fullPlatform (ClickRoll t0 t1 draws) rollingOnce = Some (s', e) ->
     isRolling rollingOnce = false ->
     completesRoll (ClickRoll t0 t1 draws) rollingOnce = false ->
     isRolling s' = true /\ total s' = None) /\
  (forall ev s' e,
     dispatch fullPlatform ev rollingOnce = Some (s', e) ->
     total s' <> None -> total s' <> total rollingOnce ->
     completesRoll ev rollingOnce = true /\ isRolling s' = false).
Proof.
  apply (no_total_while_rolling fullPlatform rollingOnce).
  exact reachable_rollingOnce.
Defined.

(** C9. An adjustment that leaves the dice count as it was leaves the total,
    the collection and the rolling flag as they were; plus one at the maximum
    and minus one at the minimum are such adjustments. *)
Theorem adjust_without_change_keeps_total_and_values p d s s' e :
  dispatch p (ClickAdjust d) s = Some (s', e) ->
  (numDice s' = numDice s ->
     total s' = total s /\ diceValues s' = diceValues s /\ isRolling s' = isRolling s) /\
  (numDice s = MAX_DICE -> d = 1 -> numDice s' = numDice s) /\
  (numDice s = MIN_DICE -> d = -1 -> numDice s' = numDice s).
Proof.
  rewrite dispatch_adjust. intros [= <- _]. unfold handleAdjustDice.
  destruct (isRolling s) eqn:Hr.
  { simpl. rewrite render_same. repeat split; auto. }
  init_audio_cases p s.
  simpl. unfold render. simpl.
  pose proof (adjustUpdater_clamp d (numDice s1)) as Hclamp.
  unfold MIN_DICE, MAX_DICE in *.
  destruct (adjustUpdater d (numDice s1) =? numDice s) eqn:He.
  - apply Z.eqb_eq in He. simpl. rewrite F2, F3, F4, Hr. repeat split; auto.
  - apply Z.eqb_neq in He. simpl. split; [intros; contradiction|]. lia.
Qed.

Lemma adjust_without_change_keeps_total_and_values_witness :
  (numDice rolledOnce = numDice rolledOnce ->
     total rolledOnce = total rolledOnce /\ diceValues rolledOnce = diceValues rolledOnce /\
     isRolling rolledOnce = isRolling rolledOnce) /\
  (numDice rolledOnce = MAX_DICE -> -1 = 1 -> numDice rolledOnce = numDice rolledOnce) /\
  (numDice rolledOnce = MIN_DICE -> -1 = -1 -> numDice rolledOnce = numDice rolledOnce).
Proof.
  apply (adjust_without_change_keeps_total_and_values fullPlatform (-1)
           rolledOnce rolledOnce [AudioResumeIfSuspended]).
  vm_compute. reflexivity.
Defined.

(** C10. [getDots] is a function of the die value alone.  For every value
    from 1 to 6 it returns the standard dot pattern of that value: the cells
    it lists are exactly the pips of the standard face, in increasing order,
    and each of the nine cells of the grid is drawn with a dot exactly when
    the standard face has a pip there.  The pattern has exactly as many lit
    cells as the value, all distinct and inside the grid; it is unchanged by
    a half turn of the face and its centre is lit exactly for the odd
    values. *)
Theorem getDots_standard_pattern v :
  1 <= v <= 6 ->
  getDots v = standardCells v /\
  gridCells v = map (fun i => standardPip v (Z.of_nat i / 3) (Z.of_nat i mod 3)) (seq 0 9) /\
  (forall i, 0 <= i <= 8 -> includes (getDots v) i = standardPip v (i / 3) (i mod 3)) /\
  Z.of_nat (length (getDots v)) = v /\
  NoDup (getDots v) /\
  Forall (fun i => 0 <= i <= 8) (getDots v) /\
  litPositions v = getDots v /\
  Z.of_nat (length (filter (fun b => Is_true b) (gridCells v))) = v /\
  (forall i, includes (getDots v) (8 - i) = includes (getDots v) i) /\
  includes (getDots v) 4 = Z.odd v.
Proof.
  intros Hv.
  assert (Hcases : v = 1 \/ v = 2 \/ v = 3 \/ v = 4 \/ v = 5 \/ v = 6) by lia.
  destruct Hcases as [->|[->|[->|[->|[->| ->]]]]].
  all: split; [reflexivity|].
  all: split; [reflexivity|].
  all: split;
    [intros i Hi;
     assert (Hi' : i = 0 \/ i = 1 \/ i = 2 \/ i = 3 \/ i = 4 \/ i = 5 \/
                   i = 6 \/ i = 7 \/ i = 8) by lia;
     destruct Hi' as [->|[->|[->|[->|[->|[->|[->|[->| ->]]]]]]]]; reflexivity|].
  all: split; [reflexivity|].
  all: split; [apply (bool_decide_unpack _); vm_compute; exact I|].
  all: split; [repeat constructor; lia|].
  all: split; [reflexivity|].
  all: split; [reflexivity|].
  all: split; [|reflexivity].
  all: intros i; unfold includes, getDots, existsb.
  all: repeat match goal with
         | |- context [?a =? ?b] => destruct (Z.eqb_spec a b)
         end; simpl; try reflexivity; lia.
Qed.

Lemma getDots_standard_pattern_witness :
  getDots 5 = standardCells 5 /\
  gridCells 5 = map (fun i => standardPip 5 (Z.of_nat i / 3) (Z.of_nat i mod 3)) (seq 0 9) /\
  (forall i, 0 <= i <= 8 -> includes (getDots 5) i = standardPip 5 (i / 3) (i mod 3)) /\
  Z.of_nat (length (getDots 5)) = 5 /\
  NoDup (getDots 5) /\
  Forall (fun i => 0 <= i <= 8) (getDots 5) /\
  litPositions 5 = getDots 5 /\
  Z.of_nat (length (filter (fun b => Is_true b) (gridCells 5))) = 5 /\
  (forall i, includes (getDots 5) (8 - i) = includes (getDots 5) i) /\
  includes (getDots 5) 4 = Z.odd 5.
Proof.
  apply (getDots_standard_pattern 5). lia.
Defined.

(** * Further properties *)

(** ** The draw and the exact product *)

(** Rounding does not cross a number that is itself a multiple of the unit
    in the last place. *)
Lemma rne_between_multiples n M :
  0 <= n -> M mod 2 ^ B64.ulp_exp n = 0 ->
  (M <= n -> M <= B64.rne n) /\ (n <= M -> B64.rne n <= M).
Proof.
  intros Hn HM. unfold B64.rne.
  pose proof (B64Facts.ulp_exp_nonneg n) as Hk.
  assert (HP : 0 < 2 ^ B64.ulp_exp n) by (apply Z.pow_pos_nonneg; lia).
  set (P := 2 ^ B64.ulp_exp n) in *.
  pose proof (Z.div_mod n P ltac:(lia)) as Hdm.
  pose proof (Z.mod_pos_bound n P HP) as Hr.
  pose proof (Z.div_mod M P ltac:(lia)) as HdM. rewrite HM, Z.add_0_r in HdM.
  set (q := n / P) in *. set (r := n mod P) in *. set (m := M / P) in *.
  split; intros Hle.
  - assert (m <= q) by nia. repeat case_match; nia.
  - destruct (Z.eq_dec r 0) as [Hr0|Hr0].
    + rewrite Hr0. replace (2 * 0 <? P) with true by (symmetry; apply Z.ltb_lt; lia).
      nia.
    + assert (q + 1 <= m) by nia. repeat case_match; nia.
Qed.

Lemma one_multiple_of_ulp n k :
  0 <= n < 6 * B64.one -> (k * B64.one) mod 2 ^ B64.ulp_exp n = 0.
Proof.
  intros [Hn0 Hn1]. unfold B64.one, B64.emin in *.
  assert (He : 0 <= B64.ulp_exp n <= 1074).
  { split; [apply B64Facts.ulp_exp_nonneg|]. unfold B64.ulp_exp, B64.prec.
    destruct (Z.eq_dec n 0) as [->|Hnz]; [simpl; lia|].
    assert (Z.log2 n < 1077); [|lia].
    apply Z.log2_lt_pow2; [lia|].
    replace (2 ^ 1077) with (8 * 2 ^ 1074)
      by (change 8 with (2 ^ 3); rewrite <- Z.pow_add_r by lia; reflexivity).
    assert (0 < 2 ^ 1074) by (apply Z.pow_pos_nonneg; lia). lia. }
  replace (2 ^ 1074) with (2 ^ (1074 - B64.ulp_exp n) * 2 ^ B64.ulp_exp n)
    by (rewrite <- Z.pow_add_r by lia; f_equal; lia).
  rewrite Z.mul_assoc. apply Z.mod_mul.
  apply Z.pow_nonzero; lia.
Qed.

(** X21. For every binary64 [r] in [0, 1), the value of [getRandomValue] is
    the face [floor(6 r) + 1] of the exact product or the next one: the
    rounding of the product can move a draw up by one face, never down. *)
Theorem getRandomValue_exact_face_or_next r :
  B64.is_random r = true ->
  (r * 6) / B64.one + 1 <= getRandomValue r <= (r * 6) / B64.one + 2.
Proof.
  intros Hr.
  pose proof (B64Facts.is_random_le r Hr) as [H0 H1].
  assert (Hone : 0 < B64.one) by (unfold B64.one, B64.emin; apply Z.pow_pos_nonneg; lia).
  assert (Hlt : r < B64.one).
  { unfold B64.is_random in Hr. apply andb_true_iff in Hr as [_ Hr].
    apply Z.ltb_lt in Hr. exact Hr. }
  set (n := r * 6). assert (Hn : 0 <= n < 6 * B64.one) by (unfold n; lia).
  set (k := n / B64.one).
  pose proof (Z.div_mod n B64.one ltac:(lia)) as Hdm.
  pose proof (Z.mod_pos_bound n B64.one Hone) as Hmb. fold k in Hdm.
  destruct (rne_between_multiples n (k * B64.one) ltac:(lia)
              (one_multiple_of_ulp n k Hn)) as [Hlo _].
  destruct (rne_between_multiples n ((k + 1) * B64.one) ltac:(lia)
              (one_multiple_of_ulp n (k + 1) Hn)) as [_ Hhi].
  specialize (Hlo ltac:(lia)). specialize (Hhi ltac:(lia)).
  unfold getRandomValue, B64.floor, B64.mul_int. fold n.
  assert (k <= B64.rne n / B64.one) by (apply Z.div_le_lower_bound; lia).
  assert (B64.rne n / B64.one < k + 2) by (apply Z.div_lt_upper_bound; lia).
  lia.
Qed.

Lemma getRandomValue_exact_face_or_next_witness :
  (2 ^ 1073 * 6) / B64.one + 1 <= getRandomValue (2 ^ 1073)
    <= (2 ^ 1073 * 6) / B64.one + 2.
Proof.
  apply (getRandomValue_exact_face_or_next (2 ^ 1073)).
  vm_compute. reflexivity.
Defined.

(** X22. The upper case happens: there is a binary64 [r] below 1 whose exact
    product [6 r] is below 5 and for which [getRandomValue] is 6, the product
    being a tie that rounds to 5.0. *)
Theorem getRandomValue_rounds_up_to_next_face :
  exists r, B64.is_random r = true /\ r * 6 < 5 * B64.one /\
            (r * 6) / B64.one + 1 = 5 /\ getRandomValue r = 6.
Proof.
  exists ((5 * 2 ^ 52 - 2) / 3 * 2 ^ 1021).
  vm_compute. repeat split; reflexivity.
Qed.

(** X23. Every face from 1 to 6 is the value of [getRandomValue] at some
    binary64 in [0, 1). *)
Theorem getRandomValue_reaches_every_face v :
  1 <= v <= 6 -> exists r, B64.is_random r = true /\ getRandomValue r = v.
Proof.
  intros Hv.
  assert (Hcases : v = 1 \/ v = 2 \/ v = 3 \/ v = 4 \/ v = 5 \/ v = 6) by lia.
  destruct Hcases as [->|[->|[->|[->|[->| ->]]]]].
  - exists 0. vm_compute. split; reflexivity.
  - exists (2 * 2 ^ 1071). vm_compute. split; reflexivity.
  - exists (3 * 2 ^ 1071). vm_compute. split; reflexivity.
  - exists (4 * 2 ^ 1071). vm_compute. split; reflexivity.
  - exists (6 * 2 ^ 1071). vm_compute. split; reflexivity.
  - exists (7 * 2 ^ 1071). vm_compute. split; reflexivity.
Qed.

Lemma getRandomValue_reaches_every_face_witness :
  exists r, B64.is_random r = true /\ getRandomValue r = 3.
Proof.
  apply (getRandomValue_reaches_every_face 3). lia.
Defined.

(** ** More on the states a run goes through *)

Lemma animate_frame p n now draws s :
  numDice (animate p n now draws s).1 = numDice s /\
  startTime (animate p n now draws s).1 = startTime s /\
  audioCtx (animate p n now draws s).1 = audioCtx s /\
  (isRolling (animate p n now draws s).1 = true -> isRolling s = true).
Proof.
  unfold animate. case_match; simpl; repeat split; auto; discriminate.
Qed.

Lemma dispatch_adjust_frame p d s s' e :
  dispatch p (ClickAdjust d) s = Some (s', e) ->
  isRolling s' = isRolling s /\ startTime s' = startTime s /\
  pendingAnimate s' = pendingAnimate s.
Proof.
  rewrite dispatch_adjust. intros [= <- _]. unfold handleAdjustDice.
  destruct (isRolling s) eqn:Hr.
  { simpl. rewrite render_same. auto. }
  init_audio_cases p s. simpl. unfold render.
  case_match; simpl; rewrite ?F3, ?F5, ?F6, ?Hr; auto.
Qed.

Lemma dispatch_startTime p ev s s' e :
  dispatch p ev s = Some (s', e) ->
  (isRolling s = true -> startTime s <> None) ->
  isRolling s' = true -> startTime s' <> None.
Proof.
  intros Hd Hinv. destruct ev as [d|t0 t1 draws|now draws].
  - destruct (dispatch_adjust_frame _ _ _ _ _ Hd) as (-> & -> & _). exact Hinv.
  - rewrite dispatch_roll in Hd. unfold rollDice in Hd.
    destruct (isRolling s) eqn:Hr.
    { injection Hd as <- _. rewrite Hr. exact Hinv. }
    init_audio_cases p s.
    match type of Hd with context [animate ?a ?b ?c ?d ?x] =>
      destruct (animate_frame a b c d x) as (_ & Hst & _);
      destruct (animate a b c d x) as [s3 e3] end.
    injection Hd as <- _. simpl in Hst. rewrite Hst. discriminate.
  - rewrite dispatch_timer in Hd. unfold timerFires in Hd.
    destruct (pendingAnimate s); [|discriminate].
    match type of Hd with context [animate ?a ?b ?c ?d ?x] =>
      destruct (animate_frame a b c d x) as (_ & Hst & _ & Hroll);
      destruct (animate a b c d x) as [s3 e3] end.
    injection Hd as <- _. simpl in *. rewrite Hst. intros H. apply Hinv, Hroll, H.
Qed.

Lemma reachable_startTime p s :
  reachable p s -> isRolling s = true -> startTime s <> None.
Proof.
  induction 1 as [|s ev s' e _ IH Hd].
  - discriminate.
  - eapply dispatch_startTime; eassumption.
Qed.

Lemma reachable_bounds p s :
  reachable p s ->
  1 <= numDice s <= 8 /\ Z.of_nat (length (diceValues s)) = numDice s.
Proof.
  intros Hre. apply reachable_invariant in Hre. destruct Hre as [Hc Hl _ _ _].
  split; assumption.
Qed.

(** X1. In every reachable state the dice count is between 1 and 8 and the
    collection holds exactly that many values, also during a roll and right
    after a change of the count. *)
Theorem reachable_count_and_length p s :
  reachable p s ->
  MIN_DICE <= numDice s <= MAX_DICE /\ Z.of_nat (length (diceValues s)) = numDice s.
Proof.
  intros Hre. unfold MIN_DICE, MAX_DICE. apply reachable_bounds with p, Hre.
Qed.

Lemma reachable_count_and_length_witness :
  MIN_DICE <= numDice twoDice <= MAX_DICE /\
  Z.of_nat (length (diceValues twoDice)) = numDice twoDice.
Proof.
  apply (reachable_count_and_length fullPlatform twoDice).
  exact reachable_twoDice.
Defined.

Lemma rolling_scheduled_facts p s :
  reachable p s ->
  (isRolling s = true <-> exists n, pendingAnimate s = Some n) /\
  (forall n, pendingAnimate s = Some n -> n = numDice s) /\
  (isRolling s = true -> exists t0, startTime s = Some t0).
Proof.
  intros Hre. pose proof (reachable_startTime p s Hre) as Hst.
  apply reachable_invariant in Hre. destruct Hre as [_ _ _ Hn Hp].
  split; [|split; [exact Hn|]].
  - rewrite Hp. destruct (pendingAnimate s) as [n|].
    + split; [eauto|discriminate].
    + split; [congruence|intros [n Hsome]; discriminate].
  - intros Hr. destruct (startTime s) as [t0|]; [eauto|].
    exfalso. apply (Hst Hr). reflexivity.
Qed.

(** X2. In every reachable state a roll is in progress exactly when a call of
    [animate] is scheduled; the scheduled call works on the current dice
    count; and a roll in progress has its start time recorded. *)
Theorem rolling_iff_animate_scheduled p s :
  reachable p s ->
  (isRolling s = true <-> exists n, pendingAnimate s = Some n) /\
  (forall n, pendingAnimate s = Some n -> n = numDice s) /\
  (isRolling s = true -> exists t0, startTime s = Some t0).
Proof. apply rolling_scheduled_facts. Qed.

Lemma rolling_iff_animate_scheduled_witness :
  (isRolling rollingOnce = true <-> exists n, pendingAnimate rollingOnce = Some n) /\
  (forall n, pendingAnimate rollingOnce = Some n -> n = numDice rollingOnce) /\
  (isRolling rollingOnce = true -> exists t0, startTime rollingOnce = Some t0).
Proof.
  apply (rolling_iff_animate_scheduled fullPlatform rollingOnce).
  exact reachable_rollingOnce.
Defined.

(** X3. While a roll is in progress the timer event can always be delivered,
    and it ends the roll exactly when at least 1000 ms have passed since the
    recorded start; before that the roll stays in progress. *)
Theorem rolling_ends_exactly_at_duration p s :
  reachable p s -> isRolling s = true ->
  exists t0, startTime s = Some t0 /\
    forall now draws, exists s' e,
      dispatch p (TimerFires now draws) s = Some (s', e) /\
      (isRolling s' = false <-> t0 + ROLL_DURATION_MS <= now) /\
      (isRolling s' = true <-> now < t0 + ROLL_DURATION_MS).
Proof.
  intros Hre Hr.
  destruct (rolling_scheduled_facts p s Hre) as (Hp & _ & Hst).
  destruct (Hst Hr) as [t0 Ht0]. destruct (proj1 Hp Hr) as [n Hn].
  exists t0. split; [exact Ht0|]. intros now draws.
  rewrite dispatch_timer. unfold timerFires. rewrite Hn.
  assert (Hz : js_or_zero (Some t0) = t0).
  { simpl. destruct (Z.eqb_spec t0 0); lia. }
  destruct (now - t0 <? ROLL_DURATION_MS) eqn:He.
  - rewrite animate_shuffle by (simpl startTime; rewrite Ht0, Hz; exact He).
    eexists _, _. split; [reflexivity|]. simpl. rewrite Hr.
    apply Z.ltb_lt in He. split; split; intros; try lia; try congruence.
  - rewrite animate_finish by (simpl startTime; rewrite Ht0, Hz; exact He).
    eexists _, _. split; [reflexivity|]. simpl.
    apply Z.ltb_ge in He. split; split; intros; try lia; try congruence.
Qed.

Lemma rolling_ends_exactly_at_duration_witness :
  exists t0, startTime rollingOnce = Some t0 /\
    forall now draws, exists s' e,
      dispatch fullPlatform (TimerFires now draws) rollingOnce = Some (s', e) /\
      (isRolling s' = false <-> t0 + ROLL_DURATION_MS <= now) /\
      (isRolling s' = true <-> now < t0 + ROLL_DURATION_MS).
Proof.
  apply (rolling_ends_exactly_at_duration fullPlatform rollingOnce).
  - exact reachable_rollingOnce.
  - reflexivity.
Defined.

(** X4. A timer event that does not finish the roll changes nothing but the
    values on display, each replaced by a new draw, and makes exactly the
    calls of the shake sound followed by one timeout of 80 ms. *)
Theorem shuffle_tick_only_changes_display p now draws s s' e :
  reachable p s ->
  dispatch p (TimerFires now draws) s = Some (s', e) ->
  completesRoll (TimerFires now draws) s = false ->
  s' = setDiceValues (imap (fun i _ => getRandomValue (draws i)) (diceValues s)) s /\
  e = playShakeSound s ++ [SetTimeout SHUFFLE_INTERVAL_MS].
Proof.
  intros Hre. rewrite dispatch_timer. unfold timerFires. simpl completesRoll.
  destruct (pendingAnimate s) as [n|] eqn:Hn; [|discriminate].
  intros Hd Hc. apply negb_false_iff in Hc.
  rewrite animate_shuffle in Hd by exact Hc.
  injection Hd as <- <-. split; [|reflexivity].
  destruct s; simpl in *. subst. reflexivity.
Qed.

Lemma shuffle_tick_only_changes_display_witness :
  setDiceValues [4] rollingOnce
    = setDiceValues (imap (fun i _ => getRandomValue (drawsHalf i)) (diceValues rollingOnce))
        rollingOnce /\
  [NoiseBurst; SetTimeout 80] = playShakeSound rollingOnce ++ [SetTimeout SHUFFLE_INTERVAL_MS].
Proof.
  apply (shuffle_tick_only_changes_display fullPlatform 5080 drawsHalf rollingOnce).
  - exact reachable_rollingOnce.
  - vm_compute. reflexivity.
  - vm_compute. reflexivity.
Defined.

(** ** Faces and totals *)

Lemma Forall_isFace_syncUpdater n prev :
  Forall isFace prev -> Forall isFace (syncUpdater n prev).
Proof.
  intros H. unfold syncUpdater, js_array_fill, js_slice0.
  repeat case_match; auto.
  - apply Forall_app. split; [exact H|].
    apply Forall_replicate. unfold isFace. lia.
  - apply Forall_take, H.
  - apply Forall_take, H.
Qed.

Lemma Forall_isFace_draws (draws : nat -> Z) (idx : list nat) :
  (forall i, B64.is_random (draws i) = true) ->
  Forall isFace (map (fun i => getRandomValue (draws i)) idx).
Proof.
  intros Hd. apply Forall_fmap, Forall_forall. intros i _. simpl.
  apply getRandomValue_range, Hd.
Qed.

Lemma animate_faces p n now draws s :
  (forall i, B64.is_random (draws i) = true) ->
  Forall isFace (diceValues (animate p n now draws s).1).
Proof.
  intros Hd. unfold animate. case_match; simpl.
  - rewrite imap_seq_0. apply Forall_isFace_draws, Hd.
  - rewrite js_array_generate_seq. apply Forall_isFace_draws, Hd.
Qed.

(** What an adjustment does when no roll is in progress. *)
Lemma dispatch_adjust_idle p d s s' e :
  isRolling s = false -> dispatch p (ClickAdjust d) s = Some (s', e) ->
  numDice s' = adjustUpdater d (numDice s) /\
  (numDice s' = numDice s -> diceValues s' = diceValues s /\ total s' = total s) /\
  (numDice s' <> numDice s ->
     diceValues s' = syncUpdater (numDice s') (diceValues s) /\ total s' = None) /\
  isRolling s' = false /\ e = (initAudio p s).2.
Proof.
  intros Hr. rewrite dispatch_adjust. unfold handleAdjustDice. rewrite Hr.
  init_audio_cases p s. simpl. intros [= <- <-]. unfold render. simpl.
  rewrite F1. destruct (adjustUpdater d (numDice s) =? numDice s) eqn:He.
  - apply Z.eqb_eq in He. simpl. rewrite ?F1, ?F2, ?F3, ?F4. repeat split; auto; congruence.
  - apply Z.eqb_neq in He. simpl. rewrite ?F1, ?F2, ?F3. repeat split; auto; congruence.
Qed.

Lemma dispatch_faces p ev s s' e :
  Forall isFace (diceValues s) -> validDraws ev ->
  dispatch p ev s = Some (s', e) -> Forall isFace (diceValues s').
Proof.
  intros Hf Hv. destruct ev as [d|t0 t1 draws|now draws].
  - destruct (isRolling s) eqn:Hr.
    + rewrite dispatch_adjust. unfold handleAdjustDice. rewrite Hr. simpl.
      rewrite render_same. intros [= <- _]. exact Hf.
    + intros Hd. destruct (dispatch_adjust_idle _ _ _ _ _ Hr Hd) as (_ & Hsame & Hdiff & _).
      destruct (Z.eq_dec (numDice s') (numDice s)) as [Heq|Hne].
      * destruct (Hsame Heq) as [-> _]. exact Hf.
      * destruct (Hdiff Hne) as [-> _]. apply Forall_isFace_syncUpdater, Hf.
  - rewrite dispatch_roll. unfold rollDice.
    destruct (isRolling s); [intros [= <- _]; exact Hf|].
    init_audio_cases p s.
    match goal with |- context [animate ?a ?b ?c ?d ?x] =>
      pose proof (animate_faces a b c d x Hv) as Ha;
      destruct (animate a b c d x) as [s3 e3] end.
    intros [= <- _]. exact Ha.
  - rewrite dispatch_timer. unfold timerFires.
    destruct (pendingAnimate s); [|discriminate].
    match goal with |- context [animate ?a ?b ?c ?d ?x] =>
      pose proof (animate_faces a b c d x Hv) as Ha;
      destruct (animate a b c d x) as [s3 e3] end.
    intros [= <- _]. exact Ha.
Qed.

Lemma run_reachable p evs s s' tr :
  reachable p s -> run p evs s = Some (s', tr) -> reachable p s'.
Proof.
  revert s tr. induction evs as [|ev evs IH]; intros s tr Hre; simpl.
  - intros [= <- _]. exact Hre.
  - destruct (dispatch p ev s) as [[s1 e1]|] eqn:Hd; [|discriminate].
    destruct (run p evs s1) as [[s2 e2]|] eqn:Hrun; [|discriminate].
    intros [= <- _]. eapply IH; [|exact Hrun].
    eapply reachable_step; eassumption.
Qed.

Lemma run_faces p evs s s' tr :
  Forall isFace (diceValues s) -> Forall validDraws evs ->
  run p evs s = Some (s', tr) -> Forall isFace (diceValues s').
Proof.
  revert s tr. induction evs as [|ev evs IH]; intros s tr Hf Hv; simpl.
  - intros [= <- _]. exact Hf.
  - apply Forall_cons in Hv as [Hv Hvs].
    destruct (dispatch p ev s) as [[s1 e1]|] eqn:Hd; [|discriminate].
    destruct (run p evs s1) as [[s2 e2]|] eqn:Hrun; [|discriminate].
    intros [= <- _]. eapply IH; [|exact Hvs|exact Hrun].
    eapply dispatch_faces; eassumption.
Qed.

Lemma getDots_length v : isFace v -> Z.of_nat (length (getDots v)) = v.
Proof.
  unfold isFace. intros Hv.
  assert (Hcases : v = 1 \/ v = 2 \/ v = 3 \/ v = 4 \/ v = 5 \/ v = 6) by lia.
  destruct Hcases as [->|[->|[->|[->|[->| ->]]]]]; reflexivity.
Qed.

(** X5. After any sequence of events from the mounted state whose draws are
    binary64 numbers in [0, 1), every die on display, during a roll as well,
    has a value from 1 to 6, and the face drawn for it carries that many
    dots: the empty default face of [getDots] never shows. *)
Theorem every_displayed_die_is_a_face p evs s tr :
  Forall validDraws evs -> run p evs mounted = Some (s, tr) ->
  Forall (fun v => isFace v /\ Z.of_nat (length (getDots v)) = v /\ getDots v <> [])
         (diceValues s).
Proof.
  intros Hv Hrun.
  assert (Hf : Forall isFace (diceValues s)).
  { eapply run_faces; [|exact Hv|exact Hrun]. simpl.
    repeat constructor; unfold isFace; lia. }
  eapply Forall_impl; [exact Hf|]. intros v Hface. simpl.
  pose proof (getDots_length v Hface) as Hlen.
  split; [exact Hface|]. split; [exact Hlen|].
  intros Hnil. rewrite Hnil in Hlen. unfold isFace in Hface. simpl in Hlen. lia.
Qed.

Lemma every_displayed_die_is_a_face_witness :
  Forall (fun v => isFace v /\ Z.of_nat (length (getDots v)) = v /\ getDots v <> [])
         (diceValues rollingOnce).
Proof.
  apply (every_displayed_die_is_a_face fullPlatform [ClickRoll 5000 5000 drawsHalf]
           rollingOnce
           [AudioContextCreate; AudioResumeIfSuspended; NoiseBurst; SetTimeout 80]).
  - constructor; [intros i; vm_compute; reflexivity|constructor].
  - vm_compute. reflexivity.
Defined.

Lemma sumZ_faces_bounds l :
  Forall isFace l -> Z.of_nat (length l) <= sumZ l <= 6 * Z.of_nat (length l).
Proof.
  induction 1 as [|v l Hv _ IH]; simpl length; simpl sumZ.
  - lia.
  - unfold isFace in Hv. lia.
Qed.

(** X6. When a roll finishes with draws that are binary64 numbers in [0, 1),
    the total lies between the dice count and six times the dice count. *)
Theorem final_total_between_count_and_six_times p ev s s' e :
  reachable p s -> dispatch p ev s = Some (s', e) -> completesRoll ev s = true ->
  validDraws ev ->
  exists t, total s' = Some t /\ numDice s' <= t <= 6 * numDice s'.
Proof.
  intros Hre Hd Hc Hv.
  assert (Hre' : reachable p s') by (eapply reachable_step; eassumption).
  apply reachable_invariant in Hre, Hre'. destruct Hre' as [_ Hlen _ _ _].
  destruct (completesRoll_result_inv _ _ _ _ _ Hre Hd Hc) as (Hn & Hvals & Ht & _).
  exists (sumZ (diceValues s')). split.
  - rewrite Ht, Hvals, js_reduce_add_sumZ. reflexivity.
  - rewrite <- Hlen. apply sumZ_faces_bounds.
    rewrite Hvals, js_array_generate_seq. apply Forall_isFace_draws, Hv.
Qed.

Lemma final_total_between_count_and_six_times_witness :
  exists t, total rolledOnce = Some t /\ numDice rolledOnce <= t <= 6 * numDice rolledOnce.
Proof.
  apply (final_total_between_count_and_six_times fullPlatform
           (TimerFires 6000 drawsHalf) rollingOnce rolledOnce
           [SpeechCancel; SpeechSpeak Congratulations]).
  - exact reachable_rollingOnce.
  - vm_compute. reflexivity.
  - vm_compute. reflexivity.
  - intros i. vm_compute. reflexivity.
Defined.

(** ** The count buttons *)

(** An adjustment in an idle reachable state, in one statement. *)
Lemma adjust_idle_reachable p d s s' e :
  reachable p s -> isRolling s = false ->
  dispatch p (ClickAdjust d) s = Some (s', e) ->
  numDice s' = Z.min 8 (Z.max 1 (numDice s + d)) /\ isRolling s' = false /\
  (numDice s <= numDice s' ->
     diceValues s' = diceValues s ++ replicate (Z.to_nat (numDice s' - numDice s)) 1) /\
  (numDice s' <= numDice s ->
     diceValues s' = take (Z.to_nat (numDice s')) (diceValues s)) /\
  (numDice s' <> numDice s -> total s' = None) /\
  (numDice s' = numDice s -> total s' = total s).
Proof.
  intros Hre Hr Hd. apply reachable_invariant in Hre. destruct Hre as [Hc Hl _ _ _].
  destruct (dispatch_adjust_idle _ _ _ _ _ Hr Hd) as (Hn & Hsame & Hdiff & Hr' & _).
  rewrite adjustUpdater_clamp in Hn. unfold MIN_DICE, MAX_DICE in Hn.
  split; [exact Hn|]. split; [exact Hr'|].
  destruct (Z.eq_dec (numDice s') (numDice s)) as [Heq|Hne].
  - destruct (Hsame Heq) as [Hv Ht]. rewrite Hv, Heq, Z.sub_diag. simpl.
    rewrite app_nil_r, take_ge by lia. repeat split; auto; contradiction.
  - destruct (Hdiff Hne) as [Hv Ht]. rewrite Hv. unfold syncUpdater, js_array_fill.
    rewrite Hl.
    destruct (numDice s =? numDice s') eqn:E1; [apply Z.eqb_eq in E1; lia|].
    destruct (numDice s <? numDice s') eqn:E2.
    + apply Z.ltb_lt in E2. repeat split; auto; try lia; contradiction.
    + apply Z.ltb_ge in E2. rewrite js_slice0_take by lia.
      repeat split; auto; try lia; contradiction.
Qed.

Lemma dispatch_adjust_some p d s :
  exists s' e, dispatch p (ClickAdjust d) s = Some (s', e).
Proof. rewrite dispatch_adjust. eauto. Qed.

(** X7. In a reachable state, a count button that is not disabled changes the
    count by exactly one when pressed: minus drops the last die, plus appends
    a die showing 1; either way the total is cleared. *)
Theorem enabled_count_button_steps_by_one p s :
  reachable p s ->
  (minusDisabled s = false ->
     exists s' e, dispatch p (ClickAdjust (-1)) s = Some (s', e) /\
       numDice s' = numDice s - 1 /\
       diceValues s' = take (Z.to_nat (numDice s - 1)) (diceValues s) /\
       total s' = None) /\
  (plusDisabled s = false ->
     exists s' e, dispatch p (ClickAdjust 1) s = Some (s', e) /\
       numDice s' = numDice s + 1 /\
       diceValues s' = diceValues s ++ [1] /\
       total s' = None).
Proof.
  intros Hre. unfold minusDisabled, plusDisabled, MIN_DICE, MAX_DICE.
  split; intros Hen; apply orb_false_iff in Hen as [Hcnt Hr].
  - apply Z.leb_gt in Hcnt.
    destruct (dispatch_adjust_some p (-1) s) as (s' & e & Hd).
    destruct (adjust_idle_reachable _ _ _ _ _ Hre Hr Hd) as (Hn & _ & _ & Hv & Ht & _).
    pose proof (reachable_bounds p s Hre) as [Hc _].
    exists s', e. split; [exact Hd|].
    assert (Hn' : numDice s' = numDice s - 1) by lia.
    rewrite <- Hn'. repeat split; [apply Hv|apply Ht]; lia.
  - rewrite Z.geb_leb in Hcnt. apply Z.leb_gt in Hcnt.
    destruct (dispatch_adjust_some p 1 s) as (s' & e & Hd).
    destruct (adjust_idle_reachable _ _ _ _ _ Hre Hr Hd) as (Hn & _ & Hv & _ & Ht & _).
    pose proof (reachable_bounds p s Hre) as [Hc _].
    exists s', e. split; [exact Hd|].
    assert (Hn' : numDice s' = numDice s + 1) by lia.
    split; [exact Hn'|]. split; [|apply Ht; lia].
    rewrite Hv by lia. rewrite Hn'.
    replace (numDice s + 1 - numDice s) with 1 by lia. reflexivity.
Qed.

Lemma enabled_count_button_steps_by_one_witness :
  (minusDisabled twoDice = false ->
     exists s' e, dispatch fullPlatform (ClickAdjust (-1)) twoDice = Some (s', e) /\
       numDice s' = numDice twoDice - 1 /\
       diceValues s' = take (Z.to_nat (numDice twoDice - 1)) (diceValues twoDice) /\
       total s' = None) /\
  (plusDisabled twoDice = false ->
     exists s' e, dispatch fullPlatform (ClickAdjust 1) twoDice = Some (s', e) /\
       numDice s' = numDice twoDice + 1 /\
       diceValues s' = diceValues twoDice ++ [1] /\
       total s' = None).
Proof.
  apply (enabled_count_button_steps_by_one fullPlatform twoDice).
  exact reachable_twoDice.
Defined.

(** X8. In a reachable state a count button is disabled exactly when pressing
    it would leave the count as it is: the markup and the handler agree on
    the bounds and on the rolling guard. *)
Theorem count_button_disabled_iff_press_keeps_count p s :
  reachable p s ->
  (forall s' e, dispatch p (ClickAdjust (-1)) s = Some (s', e) ->
     (minusDisabled s = true <-> numDice s' = numDice s)) /\
  (forall s' e, dispatch p (ClickAdjust 1) s = Some (s', e) ->
     (plusDisabled s = true <-> numDice s' = numDice s)).
Proof.
  intros Hre. pose proof (reachable_bounds p s Hre) as [Hc _].
  unfold minusDisabled, plusDisabled, MIN_DICE, MAX_DICE.
  split; intros s' e Hd; destruct (isRolling s) eqn:Hr.
  - rewrite dispatch_adjust in Hd. unfold handleAdjustDice in Hd. rewrite Hr in Hd.
    simpl in Hd. rewrite render_same in Hd. injection Hd as <- _.
    rewrite orb_true_r. split; reflexivity.
  - destruct (adjust_idle_reachable _ _ _ _ _ Hre Hr Hd) as (Hn & _).
    rewrite orb_false_r, Z.leb_le. lia.
  - rewrite dispatch_adjust in Hd. unfold handleAdjustDice in Hd. rewrite Hr in Hd.
    simpl in Hd. rewrite render_same in Hd. injection Hd as <- _.
    rewrite orb_true_r. split; reflexivity.
  - destruct (adjust_idle_reachable _ _ _ _ _ Hre Hr Hd) as (Hn & _).
    rewrite orb_false_r, Z.geb_leb, Z.leb_le. lia.
Qed.

Lemma count_button_disabled_iff_press_keeps_count_witness :
  (forall s' e, dispatch fullPlatform (ClickAdjust (-1)) rolledOnce = Some (s', e) ->
     (minusDisabled rolledOnce = true <-> numDice s' = numDice rolledOnce)) /\
  (forall s' e, dispatch fullPlatform (ClickAdjust 1) rolledOnce = Some (s', e) ->
     (plusDisabled rolledOnce = true <-> numDice s' = numDice rolledOnce)).
Proof.
  apply (count_button_disabled_iff_press_keeps_count fullPlatform rolledOnce).
  exact reachable_rolledOnce.
Defined.

(** X9. In a reachable state the results area shows a total exactly when one
    is present (the rolling test of the markup never hides one), and what it
    shows is that total, outside a roll, flagged lucky exactly when it is at
    least three times the dice count. *)
Theorem results_area_shows_total_iff_present p s :
  reachable p s ->
  (resultsArea s = None <-> total s = None) /\
  (forall t lucky, resultsArea s = Some (t, lucky) ->
     total s = Some t /\ isRolling s = false /\ (lucky = true <-> numDice s * 3 <= t)).
Proof.
  intros Hre. apply reachable_invariant in Hre. destruct Hre as [_ _ Ht _ _].
  unfold resultsArea, isLucky.
  destruct (total s) as [t|] eqn:Htot.
  - destruct (isRolling s) eqn:Hr; [specialize (Ht eq_refl); discriminate|].
    simpl. split; [split; discriminate|].
    intros t' lucky [= <- <-]. rewrite Z.geb_le. repeat split; auto.
  - split; [split; reflexivity|]. intros t lucky. discriminate.
Qed.

Lemma results_area_shows_total_iff_present_witness :
  (resultsArea rolledOnce = None <-> total rolledOnce = None) /\
  (forall t lucky, resultsArea rolledOnce = Some (t, lucky) ->
     total rolledOnce = Some t /\ isRolling rolledOnce = false /\
     (lucky = true <-> numDice rolledOnce * 3 <= t)).
Proof.
  apply (results_area_shows_total_iff_present fullPlatform rolledOnce).
  exact reachable_rolledOnce.
Defined.

(** ** Sequences of presses *)

Lemma run_cons_some p ev evs s s1 e1 s2 e2 :
  dispatch p ev s = Some (s1, e1) -> run p evs s1 = Some (s2, e2) ->
  run p (ev :: evs) s = Some (s2, e1 ++ e2).
Proof. intros Hd Hr. simpl. rewrite Hd, Hr. reflexivity. Qed.

(** X10. In a reachable state, plus then minus (plus being enabled) gives
    back the count and the very same collection; minus then plus (minus being
    enabled) gives back the count with the last die reset to 1 and the others
    kept.  Both leave no total. *)
Theorem plus_minus_round_trips p s :
  reachable p s ->
  (plusDisabled s = false ->
     exists s2 tr, run p [ClickAdjust 1; ClickAdjust (-1)] s = Some (s2, tr) /\
       numDice s2 = numDice s /\ diceValues s2 = diceValues s /\ total s2 = None) /\
  (minusDisabled s = false ->
     exists s2 tr, run p [ClickAdjust (-1); ClickAdjust 1] s = Some (s2, tr) /\
       numDice s2 = numDice s /\
       diceValues s2 = take (Z.to_nat (numDice s - 1)) (diceValues s) ++ [1] /\
       total s2 = None).
Proof.
  intros Hre.
  pose proof (reachable_bounds p s Hre) as [Hc Hl].
  unfold minusDisabled, plusDisabled, MIN_DICE, MAX_DICE.
  split; intros Hen; apply orb_false_iff in Hen as [Hcnt Hr].
  - rewrite Z.geb_leb in Hcnt. apply Z.leb_gt in Hcnt.
    destruct (dispatch_adjust_some p 1 s) as (s1 & e1 & Hd1).
    destruct (adjust_idle_reachable _ _ _ _ _ Hre Hr Hd1) as (Hn1 & Hr1 & Hv1 & _).
    assert (Hre1 : reachable p s1) by (eapply reachable_step; eassumption).
    destruct (dispatch_adjust_some p (-1) s1) as (s2 & e2 & Hd2).
    destruct (adjust_idle_reachable _ _ _ _ _ Hre1 Hr1 Hd2) as (Hn2 & _ & _ & Hv2 & Ht2 & _).
    exists s2, (e1 ++ e2 ++ []). split.
    { eapply run_cons_some; [exact Hd1|]. eapply run_cons_some; [exact Hd2|reflexivity]. }
    assert (E1 : numDice s1 = numDice s + 1) by lia.
    assert (E2 : numDice s2 = numDice s) by lia.
    split; [exact E2|]. split; [|apply Ht2; lia].
    rewrite Hv2, Hv1 by lia. rewrite E2. apply take_app_length'. lia.
  - apply Z.leb_gt in Hcnt.
    destruct (dispatch_adjust_some p (-1) s) as (s1 & e1 & Hd1).
    destruct (adjust_idle_reachable _ _ _ _ _ Hre Hr Hd1) as (Hn1 & Hr1 & _ & Hv1 & _).
    assert (Hre1 : reachable p s1) by (eapply reachable_step; eassumption).
    destruct (dispatch_adjust_some p 1 s1) as (s2 & e2 & Hd2).
    destruct (adjust_idle_reachable _ _ _ _ _ Hre1 Hr1 Hd2) as (Hn2 & _ & Hv2 & _ & Ht2 & _).
    exists s2, (e1 ++ e2 ++ []). split.
    { eapply run_cons_some; [exact Hd1|]. eapply run_cons_some; [exact Hd2|reflexivity]. }
    assert (E1 : numDice s1 = numDice s - 1) by lia.
    assert (E2 : numDice s2 = numDice s) by lia.
    split; [exact E2|]. split; [|apply Ht2; lia].
    rewrite Hv2, Hv1 by lia. rewrite E1, E2.
    replace (numDice s - (numDice s - 1)) with 1 by lia. reflexivity.
Qed.

Lemma plus_minus_round_trips_witness :
  (plusDisabled twoDice = false ->
     exists s2 tr,
       run fullPlatform [ClickAdjust 1; ClickAdjust (-1)] twoDice = Some (s2, tr) /\
       numDice s2 = numDice twoDice /\ diceValues s2 = diceValues twoDice /\
       total s2 = None) /\
  (minusDisabled twoDice = false ->
     exists s2 tr,
       run fullPlatform [ClickAdjust (-1); ClickAdjust 1] twoDice = Some (s2, tr) /\
       numDice s2 = numDice twoDice /\
       diceValues s2 = take (Z.to_nat (numDice twoDice - 1)) (diceValues twoDice) ++ [1] /\
       total s2 = None).
Proof.
  apply (plus_minus_round_trips fullPlatform twoDice).
  exact reachable_twoDice.
Defined.

Lemma repeated_plus p k : forall s,
  reachable p s -> isRolling s = false ->
  exists s' tr, run p (replicate k (ClickAdjust 1)) s = Some (s', tr) /\
    numDice s' = Z.min 8 (numDice s + Z.of_nat k) /\
    diceValues s' = diceValues s ++ replicate (Z.to_nat (numDice s' - numDice s)) 1 /\
    isRolling s' = false.
Proof.
  induction k as [|k IH]; intros s Hre Hr.
  - pose proof (reachable_bounds p s Hre) as [Hc _].
    exists s, []. simpl. rewrite Z.add_0_r, Z.min_r by lia.
    rewrite Z.sub_diag. simpl. rewrite app_nil_r. auto.
  - pose proof (reachable_bounds p s Hre) as [Hc _].
    destruct (dispatch_adjust_some p 1 s) as (s1 & e1 & Hd1).
    destruct (adjust_idle_reachable _ _ _ _ _ Hre Hr Hd1) as (Hn1 & Hr1 & Hv1 & _).
    assert (Hre1 : reachable p s1) by (eapply reachable_step; eassumption).
    destruct (IH s1 Hre1 Hr1) as (s' & tr & Hrun & Hn & Hv & Hr').
    exists s', (e1 ++ tr). split; [eapply run_cons_some; eassumption|].
    split; [lia|]. split; [|exact Hr'].
    rewrite Hv, Hv1 by lia. rewrite <- app_assoc, <- replicate_add.
    do 2 f_equal. lia.
Qed.

Lemma repeated_minus p k : forall s,
  reachable p s -> isRolling s = false ->
  exists s' tr, run p (replicate k (ClickAdjust (-1))) s = Some (s', tr) /\
    numDice s' = Z.max 1 (numDice s - Z.of_nat k) /\
    diceValues s' = take (Z.to_nat (numDice s')) (diceValues s) /\
    isRolling s' = false.
Proof.
  induction k as [|k IH]; intros s Hre Hr.
  - pose proof (reachable_bounds p s Hre) as [Hc Hl].
    exists s, []. simpl. rewrite Z.sub_0_r, Z.max_r by lia.
    rewrite take_ge by lia. auto.
  - pose proof (reachable_bounds p s Hre) as [Hc _].
    destruct (dispatch_adjust_some p (-1) s) as (s1 & e1 & Hd1).
    destruct (adjust_idle_reachable _ _ _ _ _ Hre Hr Hd1) as (Hn1 & Hr1 & _ & Hv1 & _).
    assert (Hre1 : reachable p s1) by (eapply reachable_step; eassumption).
    destruct (IH s1 Hre1 Hr1) as (s' & tr & Hrun & Hn & Hv & Hr').
    exists s', (e1 ++ tr). split; [eapply run_cons_some; eassumption|].
    split; [lia|]. split; [|exact Hr'].
    rewrite Hv, Hv1 by lia. rewrite take_take. f_equal. lia.
Qed.

(** X11. From an idle reachable state with count [c], [k] presses of plus
    give the count [min 8 (c + k)] and append that many dice showing 1 as the
    count grew; [k] presses of minus give the count [max 1 (c - k)] and keep
    the first dice up to that count. *)
Theorem repeated_presses_saturate p k s :
  reachable p s -> isRolling s = false ->
  (exists s' tr, run p (replicate k (ClickAdjust 1)) s = Some (s', tr) /\
     numDice s' = Z.min 8 (numDice s + Z.of_nat k) /\
     diceValues s' = diceValues s ++ replicate (Z.to_nat (numDice s' - numDice s)) 1 /\
     isRolling s' = false) /\
  (exists s' tr, run p (replicate k (ClickAdjust (-1))) s = Some (s', tr) /\
     numDice s' = Z.max 1 (numDice s - Z.of_nat k) /\
     diceValues s' = take (Z.to_nat (numDice s')) (diceValues s) /\
     isRolling s' = false).
Proof.
  intros Hre Hr. split; [apply repeated_plus|apply repeated_minus]; assumption.
Qed.

Lemma repeated_presses_saturate_witness :
  (exists s' tr, run fullPlatform (replicate 9 (ClickAdjust 1)) rolledOnce = Some (s', tr) /\
     numDice s' = Z.min 8 (numDice rolledOnce + Z.of_nat 9) /\
     diceValues s'
       = diceValues rolledOnce ++ replicate (Z.to_nat (numDice s' - numDice rolledOnce)) 1 /\
     isRolling s' = false) /\
  (exists s' tr, run fullPlatform (replicate 9 (ClickAdjust (-1))) rolledOnce = Some (s', tr) /\
     numDice s' = Z.max 1 (numDice rolledOnce - Z.of_nat 9) /\
     diceValues s' = take (Z.to_nat (numDice s')) (diceValues rolledOnce) /\
     isRolling s' = false).
Proof.
  apply (repeated_presses_saturate fullPlatform 9 rolledOnce).
  - exact reachable_rolledOnce.
  - reflexivity.
Defined.

(** ** A whole roll *)

Lemma countEffects_app f tr1 tr2 :
  countEffects f (tr1 ++ tr2) = (countEffects f tr1 + countEffects f tr2)%nat.
Proof. unfold countEffects. rewrite List.filter_app, length_app. reflexivity. Qed.

Lemma js_or_zero_some t : js_or_zero (Some t) = t.
Proof. simpl. destruct (Z.eqb_spec t 0); lia. Qed.

Lemma initAudio_no_timeout p s : countEffects isSetTimeout (initAudio p s).2 = 0%nat.
Proof.
  unfold initAudio.
  destruct (audioCtx s) eqn:Ha; [|destruct (hasAudioContextClass p)];
    simpl; rewrite ?Ha; reflexivity.
Qed.

Lemma playShakeSound_no_timeout s : countEffects isSetTimeout (playShakeSound s) = 0%nat.
Proof. unfold playShakeSound. destruct (audioCtx s); reflexivity. Qed.

Lemma speakResult_no_timeout p w : countEffects isSetTimeout (speakResult p w) = 0%nat.
Proof. unfold speakResult. destruct (hasSpeechSynthesis p); reflexivity. Qed.

(** From a state with a roll in progress: shuffle ticks, then the finish. *)
Lemma ticks_then_finish p n t0 tEnd dEnd ticks : forall s,
  isRolling s = true -> pendingAnimate s = Some n -> startTime s = Some t0 ->
  Forall (fun td => td.1 < t0 + ROLL_DURATION_MS) ticks ->
  t0 + ROLL_DURATION_MS <= tEnd ->
  exists s' tr,
    run p (map tickEvent ticks ++ [TimerFires tEnd dEnd]) s = Some (s', tr) /\
    numDice s' = numDice s /\ isRolling s' = false /\ pendingAnimate s' = None /\
    diceValues s' = map (fun i => getRandomValue (dEnd i)) (seq 0 (Z.to_nat n)) /\
    total s' = Some (sumZ (diceValues s')) /\
    countEffects isSetTimeout tr = length ticks.
Proof.
  induction ticks as [|[t d] ticks IH]; intros s Hr Hp Hst Hticks Hend.
  - simpl map. simpl app.
    assert (Hd : dispatch p (TimerFires tEnd dEnd) s
                 = Some (animate p n tEnd dEnd (setPendingAnimate None s))).
    { rewrite dispatch_timer. unfold timerFires. rewrite Hp. reflexivity. }
    rewrite animate_finish in Hd
      by (simpl startTime; rewrite Hst, js_or_zero_some; apply Z.ltb_ge; lia).
    simpl in Hd. eexists _, _. split.
    { eapply run_cons_some; [exact Hd|reflexivity]. }
    simpl. rewrite js_array_generate_seq, js_reduce_add_sumZ, app_nil_r.
    repeat split. apply speakResult_no_timeout.
  - apply Forall_cons in Hticks as [Ht Hticks]. simpl in Ht.
    assert (Hd : dispatch p (TimerFires t d) s
                 = Some (animate p n t d (setPendingAnimate None s))).
    { rewrite dispatch_timer. unfold timerFires. rewrite Hp. reflexivity. }
    rewrite animate_shuffle in Hd
      by (simpl startTime; rewrite Hst, js_or_zero_some; apply Z.ltb_lt; lia).
    match type of Hd with _ = Some (?s1, _) =>
      destruct (IH s1) as (s' & tr & Hrun & Hn & Hr' & Hp' & Hv & Htot & Hcnt);
        [exact Hr|reflexivity|exact Hst|exact Hticks|exact Hend|] end.
    eexists _, _. split.
    { simpl map. simpl app. eapply run_cons_some; [exact Hd|exact Hrun]. }
    repeat split; try assumption.
    rewrite !countEffects_app, playShakeSound_no_timeout, Hcnt. reflexivity.
Qed.

(** X12. A whole roll.  From an idle state, a press of the roll button
    followed by any number of timer events before the 1000 ms are over and
    one at or after them always runs to the end: the count is unchanged, the
    roll is over with nothing left scheduled, the collection is one draw of
    the last event per die, the total is its sum, and the number of timeouts
    requested is the number of shuffle ticks plus one. *)
Theorem whole_roll_runs_to_completion p s t0 t1 d0 ticks tEnd dEnd :
  isRolling s = false -> t1 < t0 + ROLL_DURATION_MS ->
  Forall (fun td => td.1 < t0 + ROLL_DURATION_MS) ticks ->
  t0 + ROLL_DURATION_MS <= tEnd ->
  exists s' tr,
    run p (ClickRoll t0 t1 d0 :: map tickEvent ticks ++ [TimerFires tEnd dEnd]) s
      = Some (s', tr) /\
    numDice s' = numDice s /\ isRolling s' = false /\ pendingAnimate s' = None /\
    diceValues s'
      = map (fun i => getRandomValue (dEnd i)) (seq 0 (Z.to_nat (numDice s))) /\
    total s' = Some (sumZ (diceValues s')) /\
    countEffects isSetTimeout tr = S (length ticks).
Proof.
  intros Hr Ht1 Hticks Hend.
  pose proof (dispatch_roll p t0 t1 d0 s) as Hd. unfold rollDice in Hd.
  rewrite Hr in Hd. pose proof (initAudio_no_timeout p s) as Hno.
  init_audio_cases p s. simpl in Hno.
  rewrite animate_shuffle in Hd
    by (simpl startTime; rewrite js_or_zero_some; apply Z.ltb_lt; lia).
  match type of Hd with _ = Some (?s3, _) =>
    destruct (ticks_then_finish p (numDice s) t0 tEnd dEnd ticks s3)
      as (s' & tr & Hrun & Hn & Hr' & Hp' & Hv & Htot & Hcnt);
      [reflexivity|reflexivity|reflexivity|exact Hticks|exact Hend|] end.
  eexists _, _. split; [eapply run_cons_some; [exact Hd|exact Hrun]|].
  simpl in Hn. rewrite F1 in Hn.
  repeat split; try assumption.
  rewrite !countEffects_app, Hno, playShakeSound_no_timeout, Hcnt. reflexivity.
Qed.

Lemma whole_roll_runs_to_completion_witness :
  exists s' tr,
    run fullPlatform
        (ClickRoll 5000 5000 drawsHalf
           :: map tickEvent [(5080, drawsHalf); (5160, drawsHalf)]
           ++ [TimerFires 6000 drawsHalf]) twoDice
      = Some (s', tr) /\
    numDice s' = numDice twoDice /\ isRolling s' = false /\ pendingAnimate s' = None /\
    diceValues s'
      = map (fun i => getRandomValue (drawsHalf i)) (seq 0 (Z.to_nat (numDice twoDice))) /\
    total s' = Some (sumZ (diceValues s')) /\
    countEffects isSetTimeout tr = S (length [(5080, drawsHalf); (5160, drawsHalf)]).
Proof.
  apply (whole_roll_runs_to_completion fullPlatform twoDice 5000 5000 drawsHalf
           [(5080, drawsHalf); (5160, drawsHalf)] 6000 drawsHalf).
  - reflexivity.
  - vm_compute. reflexivity.
  - repeat constructor.
  - vm_compute. discriminate.
Defined.

(** ** Calls into the host *)

(** The calls of one step, by the path taken through the handlers. *)
Lemma dispatch_effects_cases p ev s s' e :
  dispatch p ev s = Some (s', e) ->
  (e = [] /\ audioCtx s' = audioCtx s /\ completesRoll ev s = false) \/
  (e = (initAudio p s).2 /\ audioCtx s' = audioCtx (initAudio p s).1 /\
     completesRoll ev s = false) \/
  (e = (initAudio p s).2 ++ playShakeSound (initAudio p s).1
         ++ [SetTimeout SHUFFLE_INTERVAL_MS] /\
     audioCtx s' = audioCtx (initAudio p s).1 /\ completesRoll ev s = false /\
     pendingAnimate s' <> None) \/
  (exists w, e = (initAudio p s).2 ++ speakResult p w /\
     audioCtx s' = audioCtx (initAudio p s).1 /\ completesRoll ev s = true) \/
  (e = playShakeSound s ++ [SetTimeout SHUFFLE_INTERVAL_MS] /\
     audioCtx s' = audioCtx s /\ completesRoll ev s = false /\
     pendingAnimate s' <> None) \/
  (exists w, e = speakResult p w /\ audioCtx s' = audioCtx s /\
     completesRoll ev s = true).
Proof.
  destruct ev as [d|t0 t1 draws|now draws].
  - rewrite dispatch_adjust. unfold handleAdjustDice.
    destruct (isRolling s) eqn:Hr.
    { simpl. rewrite render_same. intros [= <- <-]. left. auto. }
    destruct (initAudio p s) as [s1 e1]. simpl. intros [= <- <-].
    right. left. unfold render. case_match; auto.
  - rewrite dispatch_roll. unfold rollDice, completesRoll.
    destruct (isRolling s) eqn:Hr.
    { intros [= <- <-]. left. auto. }
    destruct (initAudio p s) as [s1 e1].
    destruct (t1 - js_or_zero (Some t0) <? ROLL_DURATION_MS) eqn:He.
    + rewrite animate_shuffle by exact He. cbv beta iota zeta.
      intros Hd. injection Hd as Hs' He'. subst s' e.
      right. right. left. simpl. split; [reflexivity|]. split; [reflexivity|].
      split; [reflexivity|discriminate].
    + rewrite animate_finish by exact He. cbv beta iota zeta.
      intros Hd. injection Hd as Hs' He'. subst s' e.
      right. right. right. left. simpl. eexists. split; [reflexivity|].
      split; reflexivity.
  - rewrite dispatch_timer. unfold timerFires. simpl completesRoll.
    destruct (pendingAnimate s) as [n|]; [|discriminate].
    destruct (now - js_or_zero (startTime s) <? ROLL_DURATION_MS) eqn:He.
    + rewrite animate_shuffle by exact He. intros [= <- <-].
      do 4 right. left. simpl. repeat split. discriminate.
    + rewrite animate_finish by exact He. intros [= <- <-].
      do 5 right. simpl. eauto.
Qed.

Lemma initAudio_cases p s :
  (audioCtx s = true /\ initAudio p s = (s, [AudioResumeIfSuspended])) \/
  (audioCtx s = false /\ hasAudioContextClass p = true /\
     initAudio p s = (setAudioCtx true s, [AudioContextCreate; AudioResumeIfSuspended])) \/
  (audioCtx s = false /\ hasAudioContextClass p = false /\ initAudio p s = (s, [])).
Proof.
  unfold initAudio. destruct (audioCtx s) eqn:Ha.
  - left. rewrite Ha. auto.
  - destruct (hasAudioContextClass p); [right; left|right; right]; simpl; rewrite ?Ha; auto.
Qed.

(** Everything the later statements need about the calls of one step. *)
Lemma dispatch_step_calls p ev s s' e :
  dispatch p ev s = Some (s', e) ->
  (audioCtx s = true -> audioCtx s' = true /\ countEffects isCreate e = 0%nat) /\
  (audioCtx s = false ->
     (countEffects isCreate e <= 1)%nat /\
     (countEffects isCreate e = 1%nat -> audioCtx s' = true)) /\
  (hasAudioContextClass p = false -> audioCtx s = false ->
     audioCtx s' = false /\ countEffects isAudioEffect e = 0%nat) /\
  (hasSpeechSynthesis p = false -> countEffects isSpeechEffect e = 0%nat) /\
  (completesRoll ev s = false -> countEffects isSpeechEffect e = 0%nat) /\
  (completesRoll ev s = true -> countEffects isSetTimeout e = 0%nat) /\
  (countEffects isSetTimeout e <= 1)%nat /\
  (countEffects isSetTimeout e = 1%nat -> pendingAnimate s' <> None) /\
  (completesRoll ev s = true -> hasSpeechSynthesis p = true ->
     countEffects isSpeechEffect e = 2%nat).
Proof.
  intros Hd.
  destruct (dispatch_effects_cases _ _ _ _ _ Hd)
    as [(-> & Ha & Hc)|[(-> & Ha & Hc)|[(-> & Ha & Hc & Hp)|[(w & -> & Ha & Hc)
       |[(-> & Ha & Hc & Hp)|(w & -> & Ha & Hc)]]]]];
    rewrite Ha, Hc; clear Hd Ha Hc;
    try (destruct (initAudio_cases p s) as [(Hs & ->)|[(Hs & Hh & ->)|(Hs & Hh & ->)]]);
    unfold playShakeSound, speakResult; simpl; rewrite ?Hs;
    destruct (audioCtx s) eqn:Hctx; destruct (hasSpeechSynthesis p) eqn:Hsp;
    try destruct w; simpl;
    repeat split; intros; try congruence; try discriminate; try lia; auto.
Qed.

Lemma run_creates p evs : forall s s' tr,
  run p evs s = Some (s', tr) ->
  (audioCtx s = true -> countEffects isCreate tr = 0%nat) /\
  (countEffects isCreate tr <= 1)%nat.
Proof.
  induction evs as [|ev evs IH]; intros s s' tr; simpl.
  - intros [= _ <-]. split; [reflexivity|unfold countEffects; simpl; lia].
  - destruct (dispatch p ev s) as [[s1 e1]|] eqn:Hd; [|discriminate].
    destruct (run p evs s1) as [[s2 e2]|] eqn:Hrun; [|discriminate].
    intros [= _ <-]. rewrite countEffects_app.
    destruct (IH _ _ _ Hrun) as [Hzero Hle].
    destruct (dispatch_step_calls _ _ _ _ _ Hd) as (Hon & Hoff & _).
    split.
    + intros Ha. destruct (Hon Ha) as [Ha1 ->]. rewrite (Hzero Ha1). reflexivity.
    + destruct (audioCtx s) eqn:Ha.
      * destruct (Hon eq_refl) as [Ha1 ->]. rewrite (Hzero Ha1). lia.
      * destruct (Hoff eq_refl) as [Hle1 Hone].
        destruct (Nat.eq_dec (countEffects isCreate e1) 1) as [E|E].
        -- rewrite (Hzero (Hone E)). lia.
        -- lia.
Qed.

Lemma run_audioCtx_stays p evs : forall s s' tr,
  run p evs s = Some (s', tr) -> audioCtx s = true -> audioCtx s' = true.
Proof.
  induction evs as [|ev evs IH]; intros s s' tr; simpl.
  - intros [= <- _]. auto.
  - destruct (dispatch p ev s) as [[s1 e1]|] eqn:Hd; [|discriminate].
    destruct (run p evs s1) as [[s2 e2]|] eqn:Hrun; [|discriminate].
    intros [= <- _] Ha.
    destruct (dispatch_step_calls _ _ _ _ _ Hd) as (Hon & _).
    destruct (Hon Ha) as [Ha1 _]. eapply IH; eassumption.
Qed.

Lemma run_creates_context p evs : forall s s' tr,
  run p evs s = Some (s', tr) ->
  (hasAudioContextClass p = false -> audioCtx s = false ->
     countEffects isCreate tr = 0%nat) /\
  (countEffects isCreate tr = 1%nat -> audioCtx s' = true).
Proof.
  induction evs as [|ev evs IH]; intros s s' tr; simpl.
  - intros [= <- <-]. split; [reflexivity|discriminate].
  - destruct (dispatch p ev s) as [[s1 e1]|] eqn:Hd; [|discriminate].
    destruct (run p evs s1) as [[s2 e2]|] eqn:Hrun; [|discriminate].
    intros [= <- <-]. rewrite countEffects_app.
    destruct (IH _ _ _ Hrun) as [Hno Hone].
    destruct (dispatch_step_calls _ _ _ _ _ Hd) as (Hon & Hoff & Hsil & _).
    split.
    + intros Hh Ha. destruct (Hsil Hh Ha) as [Ha1 _].
      destruct (Hoff Ha) as [Hle1 Hc1]. rewrite (Hno Hh Ha1).
      destruct (Nat.eq_dec (countEffects isCreate e1) 1) as [E|E]; [|lia].
      specialize (Hc1 E). congruence.
    + intros Hsum.
      destruct (Nat.eq_dec (countEffects isCreate e2) 1) as [E|E]; [apply Hone, E|].
      assert (E1 : countEffects isCreate e1 = 1%nat) by lia.
      destruct (audioCtx s) eqn:Ha.
      * destruct (Hon eq_refl) as [_ Hz]. lia.
      * destruct (Hoff eq_refl) as [_ Hc1].
        eapply run_audioCtx_stays; [exact Hrun|exact (Hc1 E1)].
Qed.

(** X13. Over any sequence of events from the mounted state, the audio
    context is created at most once, however often the buttons are pressed,
    and never on a platform without an audio context class; once it has been
    created the reference holds it. *)
Theorem audio_context_created_at_most_once p evs s tr :
  run p evs mounted = Some (s, tr) ->
  (countEffects isCreate tr <= 1)%nat /\
  (hasAudioContextClass p = false -> countEffects isCreate tr = 0%nat) /\
  (countEffects isCreate tr = 1%nat -> audioCtx s = true).
Proof.
  intros Hrun. split; [eapply run_creates; exact Hrun|].
  destruct (run_creates_context _ _ _ _ _ Hrun) as [Hno Hone].
  split; [intros Hh; apply Hno; [exact Hh|reflexivity]|exact Hone].
Qed.

Lemma audio_context_created_at_most_once_witness :
  (countEffects isCreate
     [AudioContextCreate; AudioResumeIfSuspended; NoiseBurst; SetTimeout 80;
      SpeechCancel; SpeechSpeak Congratulations; AudioResumeIfSuspended] <= 1)%nat /\
  (hasAudioContextClass fullPlatform = false ->
   countEffects isCreate
     [AudioContextCreate; AudioResumeIfSuspended; NoiseBurst; SetTimeout 80;
      SpeechCancel; SpeechSpeak Congratulations; AudioResumeIfSuspended] = 0%nat) /\
  (countEffects isCreate
     [AudioContextCreate; AudioResumeIfSuspended; NoiseBurst; SetTimeout 80;
      SpeechCancel; SpeechSpeak Congratulations; AudioResumeIfSuspended] = 1%nat ->
   audioCtx twoDice = true).
Proof.
  apply (audio_context_created_at_most_once fullPlatform
           [ClickRoll 5000 5000 drawsHalf; TimerFires 6000 drawsHalf; ClickAdjust 1]
           twoDice).
  vm_compute. reflexivity.
Defined.

Lemma run_silent p evs : forall s s' tr,
  run p evs s = Some (s', tr) ->
  (hasAudioContextClass p = false -> audioCtx s = false ->
     audioCtx s' = false /\ countEffects isAudioEffect tr = 0%nat) /\
  (hasSpeechSynthesis p = false -> countEffects isSpeechEffect tr = 0%nat).
Proof.
  induction evs as [|ev evs IH]; intros s s' tr; simpl.
  - intros [= <- <-]. split; auto.
  - destruct (dispatch p ev s) as [[s1 e1]|] eqn:Hd; [|discriminate].
    destruct (run p evs s1) as [[s2 e2]|] eqn:Hrun; [|discriminate].
    intros [= <- <-]. rewrite !countEffects_app.
    destruct (IH _ _ _ Hrun) as [Haud Hsp].
    destruct (dispatch_step_calls _ _ _ _ _ Hd) as (_ & _ & Hsil & Hmute & _).
    split.
    + intros Hh Ha. destruct (Hsil Hh Ha) as [Ha1 ->].
      destruct (Haud Hh Ha1) as [Ha2 ->]. auto.
    + intros Hh. rewrite (Hmute Hh), (Hsp Hh). reflexivity.
Qed.

(** X14. A missing capability is never touched.  On a platform without an
    audio context class no run from the mounted state makes any audio call
    and the audio reference stays empty; on a platform without speech
    synthesis no run makes any speech call. *)
Theorem missing_capabilities_stay_silent p evs s tr :
  run p evs mounted = Some (s, tr) ->
  (hasAudioContextClass p = false ->
     countEffects isAudioEffect tr = 0%nat /\ audioCtx s = false) /\
  (hasSpeechSynthesis p = false -> countEffects isSpeechEffect tr = 0%nat).
Proof.
  intros Hrun. destruct (run_silent _ _ _ _ _ Hrun) as [Haud Hsp].
  split; [|exact Hsp].
  intros Hh. destruct (Haud Hh eq_refl) as [Ha Hc]. auto.
Qed.

Lemma missing_capabilities_stay_silent_witness :
  (hasAudioContextClass (mkPlatform false false) = false ->
     countEffects isAudioEffect [SetTimeout 80] = 0%nat /\
     audioCtx (mkApp 1 [4] false (Some 4) false (Some 5000) None) = false) /\
  (hasSpeechSynthesis (mkPlatform false false) = false ->
     countEffects isSpeechEffect [SetTimeout 80] = 0%nat).
Proof.
  apply (missing_capabilities_stay_silent (mkPlatform false false)
           [ClickRoll 5000 5000 drawsHalf; TimerFires 6000 drawsHalf]).
  vm_compute. reflexivity.
Defined.



(** ** The platform and the dice *)

Lemma dispatch_sameDice p1 p2 ev s1 s2 s1' e1 :
  sameDice s1 s2 -> dispatch p1 ev s1 = Some (s1', e1) ->
  exists s2' e2, dispatch p2 ev s2 = Some (s2', e2) /\ sameDice s1' s2' /\
                 List.filter isSetTimeout e1 = List.filter isSetTimeout e2.
Proof.
  destruct s1 as [n1 v1 r1 t1 a1 st1 pa1], s2 as [n2 v2 r2 t2 a2 st2 pa2].
  unfold sameDice. simpl. intros (-> & -> & -> & -> & -> & ->).
  destruct ev as [d|t0 t1' draws|now draws].
  - rewrite !dispatch_adjust. unfold handleAdjustDice, initAudio, render, numDiceEffect.
    simpl.
    destruct r2, a1, a2, (hasAudioContextClass p1), (hasAudioContextClass p2); simpl;
      rewrite ?Z.eqb_refl; destruct (adjustUpdater d n2 =? n2); simpl;
      intros Hd; simplify_eq; eexists _, _; repeat split.
  - rewrite !dispatch_roll. unfold rollDice, initAudio, animate, playShakeSound, speakResult.
    simpl.
    destruct r2, a1, a2, (hasAudioContextClass p1), (hasAudioContextClass p2),
      (hasSpeechSynthesis p1), (hasSpeechSynthesis p2); simpl;
      destruct (t1' - (if t0 =? 0 then 0 else t0) <? ROLL_DURATION_MS); simpl;
      intros Hd; simplify_eq; eexists _, _; repeat split.
  - rewrite !dispatch_timer. unfold timerFires, animate, playShakeSound, speakResult.
    simpl. destruct pa2 as [n|]; [|discriminate].
    destruct a1, a2, (hasSpeechSynthesis p1), (hasSpeechSynthesis p2); simpl;
      destruct (now - js_or_zero st2 <? ROLL_DURATION_MS); simpl;
      intros Hd; simplify_eq; eexists _, _; repeat split.
Qed.

(** X16. The platform has no influence on the dice: the same events run on
    two platforms, whatever their capabilities, go through states with the
    same count, collection, rolling flag, total, start time and scheduled
    call, and request the same timeouts. *)
Theorem platform_does_not_influence_dice p1 p2 evs : forall s1 s2 s1' tr1,
  sameDice s1 s2 -> run p1 evs s1 = Some (s1', tr1) ->
  exists s2' tr2, run p2 evs s2 = Some (s2', tr2) /\ sameDice s1' s2' /\
                  List.filter isSetTimeout tr1 = List.filter isSetTimeout tr2.
Proof.
  induction evs as [|ev evs IH]; intros s1 s2 s1' tr1 Hsame; simpl.
  - intros [= <- <-]. exists s2, []. auto.
  - destruct (dispatch p1 ev s1) as [[sa ea]|] eqn:Hd; [|discriminate].
    destruct (run p1 evs sa) as [[sb eb]|] eqn:Hrun; [|discriminate].
    intros [= <- <-].
    destruct (dispatch_sameDice p1 p2 _ _ _ _ _ Hsame Hd) as (sa' & ea' & Hd' & Hs' & He').
    destruct (IH _ _ _ _ Hs' Hrun) as (sb' & eb' & Hrun' & Hs'' & He'').
    exists sb', (ea' ++ eb'). rewrite Hd', Hrun'.
    split; [reflexivity|]. split; [exact Hs''|].
    rewrite !List.filter_app, He', He''. reflexivity.
Qed.

Lemma platform_does_not_influence_dice_witness :
  exists s2' tr2,
    run (mkPlatform false false)
        [ClickRoll 5000 5000 drawsHalf; TimerFires 6000 drawsHalf] mounted
      = Some (s2', tr2) /\
    sameDice rolledOnce s2' /\
    List.filter isSetTimeout
      [AudioContextCreate; AudioResumeIfSuspended; NoiseBurst; SetTimeout 80;
       SpeechCancel; SpeechSpeak Congratulations]
      = List.filter isSetTimeout tr2.
Proof.
  apply (platform_does_not_influence_dice fullPlatform (mkPlatform false false)
           [ClickRoll 5000 5000 drawsHalf; TimerFires 6000 drawsHalf] mounted mounted).
  - repeat split.
  - vm_compute. reflexivity.
Defined.

(** ** The voice *)

Lemma find_first {A} (f : A -> bool) l v :
  List.find f l = Some v ->
  exists pre post, l = pre ++ v :: post /\ Forall (fun u => f u = false) pre /\ f v = true.
Proof.
  induction l as [|x l IH]; simpl; [discriminate|].
  destruct (f x) eqn:Hx.
  - intros [= <-]. exists [], l. repeat split; [constructor|exact Hx].
  - intros Hfind. destruct (IH Hfind) as (pre & post & -> & Hpre & Hv).
    exists (x :: pre), post. repeat split; [constructor; assumption|exact Hv].
Qed.

Lemma exact_lang_includes_zh l :
  String.eqb l "zh-CN" = true -> js_includes l "zh" = true.
Proof. intros H. apply String.eqb_eq in H. subst l. reflexivity. Qed.

(** X17. The voice choice falls back to the default voice (no voice is set)
    exactly when no listed voice has a language tag containing "zh", in
    particular for an empty list; a chosen voice is one of the list and its
    tag contains "zh". *)
Theorem selectVoice_none_iff_no_zh_voice voices :
  (selectVoice voices = None <->
     Forall (fun v => js_includes (lang v) "zh" = false) voices) /\
  selectVoice [] = None /\
  (forall v, selectVoice voices = Some v ->
     In v voices /\ exists m, String.substring m 2 (lang v) = "zh").
Proof.
  unfold selectVoice. split; [|split; [reflexivity|]].
  - split.
    + destruct (List.find _ voices) eqn:Hexact; [discriminate|].
      intros Hincl. apply Forall_forall. intros v Hv.
      apply (List.find_none _ _ Hincl). apply list_elem_of_In, Hv.
    + intros Hall.
      destruct (List.find (fun v => String.eqb (lang v) "zh-CN") voices) as [v|] eqn:Hexact.
      * apply List.find_some in Hexact as [Hin Heq].
        apply exact_lang_includes_zh in Heq.
        rewrite Forall_forall in Hall.
        rewrite (Hall v) in Heq by (apply list_elem_of_In, Hin). discriminate.
      * destruct (List.find (fun v => js_includes (lang v) "zh") voices) as [v|] eqn:Hincl;
          [|reflexivity].
        apply List.find_some in Hincl as [Hin Heq].
        rewrite Forall_forall in Hall.
        rewrite (Hall v) in Heq by (apply list_elem_of_In, Hin). discriminate.
  - intros v.
    assert (Hsub : forall u, js_includes (lang u) "zh" = true ->
                     exists m, String.substring m 2 (lang u) = "zh").
    { intros u. unfold js_includes.
      destruct (String.index 0 "zh" (lang u)) as [m|] eqn:Hi; [|discriminate].
      intros _. exists m. apply (String.index_correct1 _ _ _ _ Hi). }
    destruct (List.find (fun v => String.eqb (lang v) "zh-CN") voices) as [u|] eqn:Hexact.
    + intros [= <-]. apply List.find_some in Hexact as [Hin Heq].
      split; [exact Hin|]. apply Hsub, exact_lang_includes_zh, Heq.
    + intros Hincl. apply List.find_some in Hincl as [Hin Heq].
      split; [exact Hin|]. apply Hsub, Heq.
Qed.

(** X18. An exact "zh-CN" voice wins over any other Chinese voice: when some
    listed voice has the tag "zh-CN", the chosen voice is the first one with
    that tag, also when voices whose tag merely contains "zh" come earlier
    in the list. *)
Theorem selectVoice_prefers_exact_tag voices :
  (exists v, In v voices /\ lang v = "zh-CN") ->
  exists v pre post,
    selectVoice voices = Some v /\ lang v = "zh-CN" /\
    voices = pre ++ v :: post /\ Forall (fun u => lang u <> "zh-CN") pre.
Proof.
  intros (v0 & Hin & Hlang). unfold selectVoice.
  destruct (List.find (fun v => String.eqb (lang v) "zh-CN") voices) as [v|] eqn:Hexact.
  - destruct (find_first _ _ _ Hexact) as (pre & post & Heq & Hpre & Hv).
    exists v, pre, post. split; [reflexivity|]. split; [apply String.eqb_eq, Hv|].
    split; [exact Heq|].
    eapply Forall_impl; [exact Hpre|]. intros u Hu. simpl in Hu.
    apply String.eqb_neq, Hu.
  - exfalso. pose proof (List.find_none _ _ Hexact v0 Hin) as Hno. simpl in Hno.
    apply String.eqb_neq in Hno. contradiction.
Qed.

Lemma selectVoice_prefers_exact_tag_witness :
  exists v pre post,
    selectVoice [mkVoice "Mei-Jia" "zh-TW"; mkVoice "Alex" "en-US"; mkVoice "Ting-Ting" "zh-CN"]
      = Some v /\
    lang v = "zh-CN" /\
    [mkVoice "Mei-Jia" "zh-TW"; mkVoice "Alex" "en-US"; mkVoice "Ting-Ting" "zh-CN"]
      = pre ++ v :: post /\
    Forall (fun u => lang u <> "zh-CN") pre.
Proof.
  apply (selectVoice_prefers_exact_tag
           [mkVoice "Mei-Jia" "zh-TW"; mkVoice "Alex" "en-US"; mkVoice "Ting-Ting" "zh-CN"]).
  exists (mkVoice "Ting-Ting" "zh-CN"). split; [simpl; auto|reflexivity].
Defined.

(** ** The die face outside 1..6, and the cleanup *)

(** X19. The grid always has nine cells.  [getDots] lists no cell exactly for
    the values outside 1..6, and for those no cell of the grid is lit. *)
Theorem getDots_empty_iff_not_a_face v :
  length (gridCells v) = 9%nat /\
  (getDots v = [] <-> ~ isFace v) /\
  (~ isFace v -> Forall (fun lit => lit = false) (gridCells v)).
Proof.
  split; [reflexivity|].
  assert (Hout : ~ isFace v -> getDots v = []).
  { unfold isFace. intros Hv. destruct v as [|q|q]; try reflexivity.
    destruct q as [[[q|q|]|[q|q|]|]|[[q|q|]|[q|q|]|]|]; try reflexivity; lia. }
  split; [split|].
  - intros Hnil Hface. pose proof (getDots_length v Hface) as Hlen.
    rewrite Hnil in Hlen. unfold isFace in Hface. simpl in Hlen. lia.
  - exact Hout.
  - intros Hv. unfold gridCells. rewrite (Hout Hv). simpl.
    repeat constructor.
Qed.

(** X20. The cleanup on unmount removes the scheduled call of [animate], so
    that no timer event can run afterwards, on any state; it closes the audio
    context exactly when one was created; it leaves the dice alone; and it
    raises a [TypeError] exactly on a platform without speech synthesis, the
    one where [speakResult] returns without a call. *)
Theorem unmountCleanup_stops_the_timer p s :
  (forall p' now draws, dispatch p' (TimerFires now draws) (unmountCleanup p s).1.1 = None) /\
  (In AudioContextClose (unmountCleanup p s).1.2 <-> audioCtx s = true) /\
  ((unmountCleanup p s).2 = RaisedTypeError <-> hasSpeechSynthesis p = false) /\
  ((unmountCleanup p s).2 = RaisedTypeError -> forall w, speakResult p w = []) /\
  sameDice (setPendingAnimate None s) (unmountCleanup p s).1.1.
Proof.
  unfold unmountCleanup, speakResult.
  destruct (hasSpeechSynthesis p), (audioCtx s); simpl;
    repeat split; intros; try discriminate; try reflexivity; auto;
    try (rewrite dispatch_timer; reflexivity);
    repeat match goal with
           | H : _ \/ _ |- _ => destruct H
           | H : False |- _ => destruct H
           end; try discriminate.
Qed.
